(** * onetapadd: the Completed and Given lists of script.js

    A shallow embedding of [src/script.js] and the properties its
    specification states about it.

    The script is modelled as state-passing code over a [World]: the
    [localStorage] map, the rows of the two lists, the labels, the reset
    flag and the pending timers.  What the browser provides is modelled as
    follows.

    - [localStorage] is a finite map from keys to text; writes never fail
      (no quota).
    - [JSON.stringify] and [JSON.parse] are a printer and a recursive-descent
      parser for the JSON grammar (ECMA-404) over byte strings (UTF-8).  The
      parser answers [POk], [PSyntaxError] or [PUnmodelled]; the last is
      given where this development says nothing about the engine: numbers
      with a fraction or an exponent, [\u] escapes above U+007F, exhausted
      fuel.  A parsed value is then read as a sequence of entry records;
      values of any other shape are [Unmodelled] too.
    - Every [<li>] the script creates gets a fresh node number, so that
      [listItem.remove()] removes that element and no other.
    - [window.setTimeout] and [clearTimeout] are a table of pending timers
      against a clock in milliseconds; [elapse] moves the clock.
    - [new Date()] and the answer of [window.confirm] are inputs of the
      handlers; [toLocaleDateString] is a parameter. *)

From Stdlib Require Import ZArith Ascii DecimalString DecimalPos DecimalN DecimalZ DecimalFacts.
From stdpp Require Import gmap strings list.

Local Open Scope Z_scope.
Local Set Warnings "-register-all".

(** ** Characters *)

Definition dquote : ascii := "034"%char.
Definition backslash : ascii := "\"%char.

Definition is_ws (c : ascii) : bool :=
  match N_of_ascii c with
  | 32%N | 9%N | 10%N | 13%N => true
  | _ => false
  end.

Definition hex_digit (n : N) : ascii :=
  match n with
  | 0%N => "0" | 1%N => "1" | 2%N => "2" | 3%N => "3"
  | 4%N => "4" | 5%N => "5" | 6%N => "6" | 7%N => "7"
  | 8%N => "8" | 9%N => "9" | 10%N => "a" | 11%N => "b"
  | 12%N => "c" | 13%N => "d" | 14%N => "e" | _ => "f"
  end%char.

Definition hex_val (c : ascii) : option N :=
  let n := N_of_ascii c in
  if ((48 <=? n) && (n <=? 57))%N then Some (n - 48)%N
  else if ((97 <=? n) && (n <=? 102))%N then Some (n - 87)%N
  else if ((65 <=? n) && (n <=? 70))%N then Some (n - 55)%N
  else None.

(** ** JSON values *)

Inductive json : Type :=
| JNull
| JBool (b : bool)
| JNum (n : Z)
| JStr (s : string)
| JArr (elements : list json)
| JObj (members : list (string * json)).

(** *** JSON.stringify *)

(** QuoteJSONString: the two-character escapes, [\u00xx] for the other
    control characters, every other byte as it is. *)
Definition quote_char (c : ascii) : string :=
  match N_of_ascii c with
  | 8%N => String backslash "b"
  | 9%N => String backslash "t"
  | 10%N => String backslash "n"
  | 12%N => String backslash "f"
  | 13%N => String backslash "r"
  | 34%N => String backslash (String dquote "")
  | 92%N => String backslash (String backslash "")
  | n =>
      if (n <? 32)%N
      then String backslash
             (String "u" (String "0" (String "0"
                (String (hex_digit (n / 16)) (String (hex_digit (n mod 16)) "")))))
      else String c ""
  end.

Fixpoint quote_chars (s : string) : string :=
  match s with
  | EmptyString => EmptyString
  | String c s' => quote_char c +:+ quote_chars s'
  end.

Definition quote (s : string) : string :=
  String dquote (quote_chars s +:+ String dquote "").

(** Number::toString on an integer: the decimal digits, with a sign. *)
Definition string_of_Z (n : Z) : string :=
  NilEmpty.string_of_int (Z.to_int n).

Fixpoint JSON_stringify (v : json) : string :=
  match v with
  | JNull => "null"
  | JBool true => "true"
  | JBool false => "false"
  | JNum n => string_of_Z n
  | JStr s => quote s
  | JArr elements =>
      "[" +:+ String.concat "," (map JSON_stringify elements) +:+ "]"
  | JObj members =>
      "{" +:+ String.concat ","
                (map (fun m => let '(k, x) := m in
                               quote k +:+ ":" +:+ JSON_stringify x) members)
          +:+ "}"
  end.

(** *** JSON.parse *)

Inductive presult (A : Type) : Type :=
| POk (a : A) (rest : string)
| PSyntaxError
| PUnmodelled.
Arguments POk {A} a rest.
Arguments PSyntaxError {A}.
Arguments PUnmodelled {A}.

Definition pmap {A B} (f : A -> B) (r : presult A) : presult B :=
  match r with
  | POk a rest => POk (f a) rest
  | PSyntaxError => PSyntaxError
  | PUnmodelled => PUnmodelled
  end.

Fixpoint skip_ws (s : string) : string :=
  match s with
  | String c s' => if is_ws c then skip_ws s' else s
  | EmptyString => EmptyString
  end.

Definition unescape (e : ascii) : option ascii :=
  match N_of_ascii e with
  | 34%N => Some dquote
  | 92%N => Some backslash
  | 47%N => Some "/"%char
  | 98%N => Some (ascii_of_N 8)
  | 102%N => Some (ascii_of_N 12)
  | 110%N => Some (ascii_of_N 10)
  | 114%N => Some (ascii_of_N 13)
  | 116%N => Some (ascii_of_N 9)
  | _ => None
  end.

Definition hex4 (h1 h2 h3 h4 : ascii) : option N :=
  match hex_val h1, hex_val h2, hex_val h3, hex_val h4 with
  | Some a, Some b, Some c, Some d => Some (((a * 16 + b) * 16 + c) * 16 + d)%N
  | _, _, _, _ => None
  end.

(** The characters of a string literal, after its opening quote. *)
Fixpoint parse_chars (s : string) : presult string :=
  match s with
  | EmptyString => PSyntaxError
  | String c s' =>
      if Ascii.eqb c dquote then POk EmptyString s'
      else if Ascii.eqb c backslash then
        match s' with
        | EmptyString => PSyntaxError
        | String e s'' =>
            if Ascii.eqb e "u" then
              match s'' with
              | String h1 (String h2 (String h3 (String h4 r))) =>
                  match hex4 h1 h2 h3 h4 with
                  | Some n =>
                      if (n <? 128)%N
                      then pmap (String (ascii_of_N n)) (parse_chars r)
                      else PUnmodelled
                  | None => PSyntaxError
                  end
              | _ => PSyntaxError
              end
            else
              match unescape e with
              | Some c' => pmap (String c') (parse_chars s'')
              | None => PSyntaxError
              end
        end
      else if (N_of_ascii c <? 32)%N then PSyntaxError
      else pmap (String c) (parse_chars s')
  end.

Definition uint_snoc_char (c : ascii) : option (Decimal.uint -> Decimal.uint) :=
  match N_of_ascii c with
  | 48%N => Some Decimal.D0 | 49%N => Some Decimal.D1 | 50%N => Some Decimal.D2
  | 51%N => Some Decimal.D3 | 52%N => Some Decimal.D4 | 53%N => Some Decimal.D5
  | 54%N => Some Decimal.D6 | 55%N => Some Decimal.D7 | 56%N => Some Decimal.D8
  | 57%N => Some Decimal.D9
  | _ => None
  end.

(** The longest run of decimal digits at the head of [s]. *)
Fixpoint read_digits (s : string) : Decimal.uint * string :=
  match s with
  | EmptyString => (Decimal.Nil, EmptyString)
  | String c s' =>
      match uint_snoc_char c with
      | Some d => let '(u, rest) := read_digits s' in (d u, rest)
      | None => (Decimal.Nil, s)
      end
  end.

Definition starts_fraction_or_exponent (s : string) : bool :=
  match s with
  | String c _ => Ascii.eqb c "." || Ascii.eqb c "e" || Ascii.eqb c "E"
  | EmptyString => false
  end.

(** [int = "0" | digit1-9 *digit]; a fraction or exponent part is left out. *)
Definition parse_unsigned (s : string) : presult Z :=
  match s with
  | String c s' =>
      if Ascii.eqb c "0" then
        if starts_fraction_or_exponent s' then PUnmodelled else POk 0 s'
      else
        match read_digits s with
        | (Decimal.Nil, _) => PSyntaxError
        | (u, rest) =>
            if starts_fraction_or_exponent rest then PUnmodelled
            else POk (Z.of_uint u) rest
        end
  | EmptyString => PSyntaxError
  end.

Definition parse_number (s : string) : presult Z :=
  match s with
  | String c s' =>
      if Ascii.eqb c "-" then pmap Z.opp (parse_unsigned s') else parse_unsigned s
  | EmptyString => PSyntaxError
  end.

Fixpoint strip_prefix (p s : string) : option string :=
  match p, s with
  | EmptyString, _ => Some s
  | String a p', String b s' => if Ascii.eqb a b then strip_prefix p' s' else None
  | String _ _, EmptyString => None
  end.

Definition expect_literal (lit : string) (v : json) (s : string) : presult json :=
  match strip_prefix lit s with
  | Some rest => POk v rest
  | None => PSyntaxError
  end.

(** One fuel unit is spent per nesting level and per element or member. *)
Fixpoint parse_value (fuel : nat) (s : string) : presult json :=
  match fuel with
  | O => PUnmodelled
  | S fuel' =>
      match skip_ws s with
      | EmptyString => PSyntaxError
      | String c r =>
          if Ascii.eqb c dquote then pmap JStr (parse_chars r)
          else if Ascii.eqb c "[" then
            match skip_ws r with
            | String c' r' =>
                if Ascii.eqb c' "]" then POk (JArr []) r'
                else pmap JArr (parse_elements fuel' r)
            | EmptyString => PSyntaxError
            end
          else if Ascii.eqb c "{" then
            match skip_ws r with
            | String c' r' =>
                if Ascii.eqb c' "}" then POk (JObj []) r'
                else pmap JObj (parse_members fuel' r)
            | EmptyString => PSyntaxError
            end
          else if Ascii.eqb c "t" then expect_literal "true" (JBool true) (String c r)
          else if Ascii.eqb c "f" then expect_literal "false" (JBool false) (String c r)
          else if Ascii.eqb c "n" then expect_literal "null" JNull (String c r)
          else pmap JNum (parse_number (String c r))
      end
  end
with parse_elements (fuel : nat) (s : string) : presult (list json) :=
  match fuel with
  | O => PUnmodelled
  | S fuel' =>
      match parse_value fuel' s with
      | POk v r =>
          match skip_ws r with
          | String c r' =>
              if Ascii.eqb c "," then pmap (cons v) (parse_elements fuel' r')
              else if Ascii.eqb c "]" then POk [v] r'
              else PSyntaxError
          | EmptyString => PSyntaxError
          end
      | PSyntaxError => PSyntaxError
      | PUnmodelled => PUnmodelled
      end
  end
with parse_members (fuel : nat) (s : string) : presult (list (string * json)) :=
  match fuel with
  | O => PUnmodelled
  | S fuel' =>
      match skip_ws s with
      | String q r =>
          if Ascii.eqb q dquote then
            match parse_chars r with
            | POk k r1 =>
                match skip_ws r1 with
                | String colon r2 =>
                    if Ascii.eqb colon ":" then
                      match parse_value fuel' r2 with
                      | POk v r3 =>
                          match skip_ws r3 with
                          | String c r4 =>
                              if Ascii.eqb c ","
                              then pmap (cons (k, v)) (parse_members fuel' r4)
                              else if Ascii.eqb c "}" then POk [(k, v)] r4
                              else PSyntaxError
                          | EmptyString => PSyntaxError
                          end
                      | PSyntaxError => PSyntaxError
                      | PUnmodelled => PUnmodelled
                      end
                    else PSyntaxError
                | EmptyString => PSyntaxError
                end
            | PSyntaxError => PSyntaxError
            | PUnmodelled => PUnmodelled
            end
          else PSyntaxError
      | EmptyString => PSyntaxError
      end
  end.

(** ** Outcomes of running script code *)

Inductive exn : Type := SyntaxError.

Inductive outcome (A : Type) : Type :=
| Return (a : A)
| Throw (e : exn)
| Unmodelled.
Arguments Return {A} a.
Arguments Throw {A} e.
Arguments Unmodelled {A}.

Definition parse_fuel (text : string) : nat := 2 * String.length text + 2.

Definition JSON_parse (text : string) : outcome json :=
  match parse_value (parse_fuel text) text with
  | POk v rest =>
      match skip_ws rest with
      | EmptyString => Return v
      | String _ _ => Throw SyntaxError
      end
  | PSyntaxError => Throw SyntaxError
  | PUnmodelled => Unmodelled
  end.

(** ** Entry model *)

(** [{ id: now.getTime(), content: content }] *)
Record CompletedEntry : Type := { id : Z; content : string }.

(** [{ completedOn: entryObject.content, givenOn: `Given on: ${givenDate}` }] *)
Record GivenEntry : Type := { completedOn : string; givenOn : string }.

(** The object literals of the script as JSON values, members in the order
    in which the literal lists them. *)
Definition json_of_completed (e : CompletedEntry) : json :=
  JObj [("id", JNum (id e)); ("content", JStr (content e))].

Definition json_of_given (e : GivenEntry) : json :=
  JObj [("completedOn", JStr (completedOn e)); ("givenOn", JStr (givenOn e))].

(** Integers that a JS number holds exactly. *)
Definition MAX_SAFE_INTEGER : Z := 9007199254740991.

Definition is_safe_integer (n : Z) : bool :=
  (- MAX_SAFE_INTEGER <=? n) && (n <=? MAX_SAFE_INTEGER).

(** A time value of a [Date]: at most 8.64e15 ms either side of the epoch. *)
Definition time_value (t : Z) : Prop := - 8640000000000000 <= t <= 8640000000000000.

(** The typed reading of a parsed value.  A parsed object is an entry when
    it has exactly the members of the literal, in its order, with an exactly
    held integer [id]; the embedding is silent about any other value. *)
Definition completed_of_json (v : json) : option CompletedEntry :=
  match v with
  | JObj [(k1, JNum n); (k2, JStr c)] =>
      if String.eqb k1 "id" && String.eqb k2 "content" && is_safe_integer n
      then Some {| id := n; content := c |}
      else None
  | _ => None
  end.

Definition given_of_json (v : json) : option GivenEntry :=
  match v with
  | JObj [(k1, JStr a); (k2, JStr b)] =>
      if String.eqb k1 "completedOn" && String.eqb k2 "givenOn"
      then Some {| completedOn := a; givenOn := b |}
      else None
  | _ => None
  end.

Definition array_of_json {A} (elem : json -> option A) (v : json) : outcome (list A) :=
  match v with
  | JArr elements =>
      match mapM elem elements with
      | Some l => Return l
      | None => Unmodelled
      end
  | _ => Unmodelled
  end.

(** ** The page *)

(** An [<li>] of [#completion-list]: its text span and the entry captured by
    the [onclick] closure of its transfer button. *)
Record CompletedItem : Type :=
  { c_node : nat; c_text : string; c_entryObject : CompletedEntry }.

(** An [<li>] of [#given-list]: the two text lines. *)
Record GivenItem : Type :=
  { g_node : nat; g_completedText : string; g_givenText : string }.

Inductive tab : Type := completed | given.

Record Document : Type :=
  { completionList : list CompletedItem;
    givenList : list GivenItem;
    tabCompleted_textContent : string;
    tabGiven_textContent : string;
    activeTab : option tab;
    completeButton_display : string;
    completeButton_resetClass : bool;
    completeButton_textContent : string;
    next_node : nat }.

(** Pending [setTimeout(enterResetMode, 3000)] calls: handle and due time. *)
Record Timers : Type :=
  { pending : list (nat * Z);
    next_handle : nat;
    clock : Z }.

Record World : Type :=
  { localStorage : gmap string string;
    document : Document;
    isResetMode : bool;
    pressTimer : option nat;
    timers : Timers }.

Definition set_localStorage (f : gmap string string -> gmap string string) (w : World) : World :=
  {| localStorage := f (localStorage w); document := document w;
     isResetMode := isResetMode w; pressTimer := pressTimer w; timers := timers w |}.

Definition set_document (f : Document -> Document) (w : World) : World :=
  {| localStorage := localStorage w; document := f (document w);
     isResetMode := isResetMode w; pressTimer := pressTimer w; timers := timers w |}.

Definition set_isResetMode (b : bool) (w : World) : World :=
  {| localStorage := localStorage w; document := document w;
     isResetMode := b; pressTimer := pressTimer w; timers := timers w |}.

Definition set_pressTimer (h : option nat) (w : World) : World :=
  {| localStorage := localStorage w; document := document w;
     isResetMode := isResetMode w; pressTimer := h; timers := timers w |}.

Definition set_timers (f : Timers -> Timers) (w : World) : World :=
  {| localStorage := localStorage w; document := document w;
     isResetMode := isResetMode w; pressTimer := pressTimer w; timers := f (timers w) |}.

Definition set_completionList (f : list CompletedItem -> list CompletedItem) (d : Document) : Document :=
  {| completionList := f (completionList d); givenList := givenList d;
     tabCompleted_textContent := tabCompleted_textContent d;
     tabGiven_textContent := tabGiven_textContent d;
     activeTab := activeTab d;
     completeButton_display := completeButton_display d;
     completeButton_resetClass := completeButton_resetClass d;
     completeButton_textContent := completeButton_textContent d;
     next_node := next_node d |}.

Definition set_givenList (f : list GivenItem -> list GivenItem) (d : Document) : Document :=
  {| completionList := completionList d; givenList := f (givenList d);
     tabCompleted_textContent := tabCompleted_textContent d;
     tabGiven_textContent := tabGiven_textContent d;
     activeTab := activeTab d;
     completeButton_display := completeButton_display d;
     completeButton_resetClass := completeButton_resetClass d;
     completeButton_textContent := completeButton_textContent d;
     next_node := next_node d |}.

Definition set_tab_texts (c g : string) (d : Document) : Document :=
  {| completionList := completionList d; givenList := givenList d;
     tabCompleted_textContent := c;
     tabGiven_textContent := g;
     activeTab := activeTab d;
     completeButton_display := completeButton_display d;
     completeButton_resetClass := completeButton_resetClass d;
     completeButton_textContent := completeButton_textContent d;
     next_node := next_node d |}.

Definition set_activeTab (t : tab) (display : string) (d : Document) : Document :=
  {| completionList := completionList d; givenList := givenList d;
     tabCompleted_textContent := tabCompleted_textContent d;
     tabGiven_textContent := tabGiven_textContent d;
     activeTab := Some t;
     completeButton_display := display;
     completeButton_resetClass := completeButton_resetClass d;
     completeButton_textContent := completeButton_textContent d;
     next_node := next_node d |}.

Definition set_completeButton (resetClass : bool) (text : string) (d : Document) : Document :=
  {| completionList := completionList d; givenList := givenList d;
     tabCompleted_textContent := tabCompleted_textContent d;
     tabGiven_textContent := tabGiven_textContent d;
     activeTab := activeTab d;
     completeButton_display := completeButton_display d;
     completeButton_resetClass := resetClass;
     completeButton_textContent := text;
     next_node := next_node d |}.

Definition bump_next_node (d : Document) : Document :=
  {| completionList := completionList d; givenList := givenList d;
     tabCompleted_textContent := tabCompleted_textContent d;
     tabGiven_textContent := tabGiven_textContent d;
     activeTab := activeTab d;
     completeButton_display := completeButton_display d;
     completeButton_resetClass := completeButton_resetClass d;
     completeButton_textContent := completeButton_textContent d;
     next_node := S (next_node d) |}.

(** ** Script code: state, exceptions *)

(** A computation of the script runs on the world and either returns or
    throws; the world at the throw is kept, as the page keeps it. *)
Definition M (A : Type) : Type := World -> outcome A * World.

#[global] Instance M_ret : MRet M := fun A a w => (Return a, w).

#[global] Instance M_bind : MBind M := fun A B f m w =>
  match m w with
  | (Return a, w') => f a w'
  | (Throw e, w') => (Throw e, w')
  | (Unmodelled, w') => (Unmodelled, w')
  end.

Definition lift {A} (o : outcome A) : M A := fun w => (o, w).

Definition modify (f : World -> World) : M unit := fun w => (Return tt, f w).

Definition gets {A} (f : World -> A) : M A := fun w => (Return (f w), w).

(** [array.forEach(callback)] *)
Fixpoint forEach {A} (l : list A) (callback : A -> M unit) : M unit :=
  match l with
  | [] => mret tt
  | x :: l' => callback x ;; forEach l' callback
  end.

(** *** localStorage *)

Definition localStorage_getItem (key : string) : M (option string) :=
  gets (fun w => localStorage w !! key).

Definition localStorage_setItem (key value : string) : M unit :=
  modify (set_localStorage (insert key value)).

(** *** Timers *)

Definition window_setTimeout (delay : Z) : M nat :=
  h ← gets (fun w => next_handle (timers w));
  modify (set_timers (fun t =>
    {| pending := pending t ++ [(h, clock t + delay)];
       next_handle := S h; clock := clock t |})) ;;
  mret h.

Definition window_clearTimeout (handle : option nat) : M unit :=
  match handle with
  | Some h =>
      modify (set_timers (fun t =>
        {| pending := filter (fun p => p.1 ≠ h) (pending t);
           next_handle := next_handle t; clock := clock t |}))
  | None => mret tt
  end.

(** *** Elements *)

Definition document_createElement : M nat :=
  n ← gets (fun w => next_node (document w));
  modify (set_document bump_next_node) ;;
  mret n.

(** [element.remove()]: the element leaves its parent, whichever list it is in. *)
Definition element_remove (node : nat) : M unit :=
  modify (set_document (fun d =>
    set_givenList (filter (fun r => g_node r ≠ node))
      (set_completionList (filter (fun r => c_node r ≠ node)) d))).

(** ** A date formatter for examples: en-US, UTC *)

Definition month_name (m : Z) : string :=
  match m with
  | 1 => "January" | 2 => "February" | 3 => "March" | 4 => "April"
  | 5 => "May" | 6 => "June" | 7 => "July" | 8 => "August"
  | 9 => "September" | 10 => "October" | 11 => "November" | _ => "December"
  end.

(** Year, month and day of the proleptic Gregorian calendar from the number
    of days since 1970-01-01. *)
Definition civil_from_days (days : Z) : Z * Z * Z :=
  let z := days + 719468 in
  let era := z / 146097 in
  let doe := z - era * 146097 in
  let yoe := (doe - doe / 1460 + doe / 36524 - doe / 146096) / 365 in
  let doy := doe - (365 * yoe + yoe / 4 - yoe / 100) in
  let mp := (5 * doy + 2) / 153 in
  let d := doy - (153 * mp + 2) / 5 + 1 in
  let m := if mp <? 10 then mp + 3 else mp - 9 in
  let y := yoe + era * 400 in
  (if m <=? 2 then y + 1 else y, m, d).

(** [toLocaleDateString('en-US', {year:'numeric', month:'long', day:'numeric',
    timeZone:'UTC'})] for years from 1 on. *)
Definition toLocaleDateString_en_US_UTC (t : Z) : string :=
  let '(y, m, d) := civil_from_days (t / 86400000) in
  month_name m +:+ " " +:+ string_of_Z d +:+ ", " +:+ string_of_Z y.

(** A page whose store is empty and whose lists have no rows. *)
Definition empty_page : World :=
  {| localStorage := ∅;
     document :=
       {| completionList := []; givenList := [];
          tabCompleted_textContent := "Completed (0)";
          tabGiven_textContent := "Given (0)";
          activeTab := Some completed;
          completeButton_display := "block";
          completeButton_resetClass := false;
          completeButton_textContent := "+";
          next_node := 0 |};
     isResetMode := false;
     pressTimer := None;
     timers := {| pending := []; next_handle := 1; clock := 0 |} |}.

(** ** The script *)

Section Script.

(** [date.toLocaleDateString(undefined, {year:'numeric', month:'long',
    day:'numeric'})] of the host: locale and time zone are the viewer's. *)
Variable toLocaleDateString : Z -> string.

Definition COMPLETED_STORAGE_KEY : string := "completionEntries".
Definition GIVEN_STORAGE_KEY : string := "givenEntries".

(** A string is truthy when it is not empty; [null] is falsy. *)
Definition truthy (s : string) : bool :=
  match s with
  | EmptyString => false
  | String _ _ => true
  end.

Definition loadCompletedEntries : M (list CompletedEntry) :=
  entriesJSON ← localStorage_getItem COMPLETED_STORAGE_KEY;
  match entriesJSON with
  | Some text =>
      if truthy text
      then v ← lift (JSON_parse text); lift (array_of_json completed_of_json v)
      else mret []
  | None => mret []
  end.

Definition saveCompletedEntries (entries : list CompletedEntry) : M unit :=
  localStorage_setItem COMPLETED_STORAGE_KEY
    (JSON_stringify (JArr (map json_of_completed entries))).

Definition loadGivenEntries : M (list GivenEntry) :=
  entriesJSON ← localStorage_getItem GIVEN_STORAGE_KEY;
  match entriesJSON with
  | Some text =>
      if truthy text
      then v ← lift (JSON_parse text); lift (array_of_json given_of_json v)
      else mret []
  | None => mret []
  end.

Definition saveGivenEntries (entries : list GivenEntry) : M unit :=
  localStorage_setItem GIVEN_STORAGE_KEY
    (JSON_stringify (JArr (map json_of_given entries))).

Definition createCompletedListItem (entryObject : CompletedEntry) : M CompletedItem :=
  listItem ← document_createElement;
  mret {| c_node := listItem;
          c_text := content entryObject;
          c_entryObject := entryObject |}.

Definition createGivenListItem (entryObject : GivenEntry) : M GivenItem :=
  listItem ← document_createElement;
  mret {| g_node := listItem;
          g_completedText := completedOn entryObject;
          g_givenText := givenOn entryObject |}.

Definition updateTabCounts : M unit :=
  completedEntries ← loadCompletedEntries;
  let completedCount := length completedEntries in
  givenEntries ← loadGivenEntries;
  let givenCount := length givenEntries in
  modify (set_document (set_tab_texts
    ("Completed (" +:+ string_of_Z (Z.of_nat completedCount) +:+ ")")
    ("Given (" +:+ string_of_Z (Z.of_nat givenCount) +:+ ")"))).

Definition renderList : M unit :=
  modify (set_document (set_completionList (fun _ => []))) ;;
  modify (set_document (set_givenList (fun _ => []))) ;;
  completedEntries ← loadCompletedEntries;
  forEach completedEntries (fun entryObject =>
    listItem ← createCompletedListItem entryObject;
    modify (set_document (set_completionList (fun rows => rows ++ [listItem])))) ;;
  givenEntries ← loadGivenEntries;
  forEach givenEntries (fun entryObject =>
    listItem ← createGivenListItem entryObject;
    modify (set_document (set_givenList (fun rows => rows ++ [listItem])))).

(** [now] is the time value of [new Date()]. *)
Definition handleAddEntry (now : Z) : M unit :=
  let date := toLocaleDateString now in
  let content := "Completed on " +:+ date in
  let newEntry := {| id := now; content := content |} in
  listItem ← createCompletedListItem newEntry;
  modify (set_document (set_completionList (cons listItem))) ;;
  currentEntries ← loadCompletedEntries;
  let currentEntries := newEntry :: currentEntries in
  saveCompletedEntries currentEntries ;;
  updateTabCounts.

Definition handleTransfer (entryObject : CompletedEntry) (listItemElement : nat)
    (now : Z) : M unit :=
  element_remove listItemElement ;;
  completedEntries ← loadCompletedEntries;
  let completedEntries :=
    filter (fun entry => id entry ≠ id entryObject) completedEntries in
  saveCompletedEntries completedEntries ;;
  let givenDate := toLocaleDateString now in
  let newGivenEntry :=
    {| completedOn := content entryObject;
       givenOn := "Given on: " +:+ givenDate |} in
  givenListItem ← createGivenListItem newGivenEntry;
  modify (set_document (set_givenList (cons givenListItem))) ;;
  givenEntries ← loadGivenEntries;
  let givenEntries := newGivenEntry :: givenEntries in
  saveGivenEntries givenEntries ;;
  updateTabCounts.

Definition handleTabClick (activeTab : tab) : M unit :=
  match activeTab with
  | completed => modify (set_document (set_activeTab completed "block"))
  | given => modify (set_document (set_activeTab given "none"))
  end.

Definition enterResetMode : M unit :=
  modify (set_isResetMode true) ;;
  modify (set_document (set_completeButton true "⟳")).

Definition exitResetMode : M unit :=
  modify (set_isResetMode false) ;;
  modify (set_document (set_completeButton false "+")).

(** [confirmed] is the answer of [window.confirm]. *)
Definition handleReset (confirmed : bool) : M unit :=
  (if confirmed then
     saveCompletedEntries [] ;;
     saveGivenEntries [] ;;
     renderList ;;
     updateTabCounts
   else mret tt) ;;
  exitResetMode.

Definition handleButtonPress : M unit :=
  h ← window_setTimeout 3000;
  modify (set_pressTimer (Some h)).

Definition handleButtonRelease : M unit :=
  h ← gets pressTimer;
  window_clearTimeout h.

Definition handleButtonClick (now : Z) (confirmed : bool) : M unit :=
  armed ← gets isResetMode;
  if (armed : bool) then handleReset confirmed else handleAddEntry now.

(** The body of the [DOMContentLoaded] listener after the lookups. *)
Definition initialLoad : M unit :=
  renderList ;;
  updateTabCounts.

(** *** The event loop *)

Inductive event : Type :=
| click_completeButton (now : Z) (confirmed : bool)
| click_removeBtn (listItem : nat) (now : Z)
| click_tab (t : tab)
| mousedown_completeButton
| mouseup_completeButton
| mouseleave_completeButton
| elapse (ms : Z).

(** Timers that are due fire in the order in which they were set. *)
Definition run_timers (ms : Z) : M unit :=
  modify (set_timers (fun t =>
    {| pending := pending t; next_handle := next_handle t; clock := clock t + ms |})) ;;
  now ← gets (fun w => clock (timers w));
  due ← gets (fun w => filter (fun p => p.2 <= now) (pending (timers w)));
  modify (set_timers (fun t =>
    {| pending := filter (fun p => ¬ p.2 <= now) (pending t);
       next_handle := next_handle t; clock := clock t |})) ;;
  forEach due (fun _ => enterResetMode).

Definition listener (e : event) : M unit :=
  match e with
  | click_completeButton now confirmed => handleButtonClick now confirmed
  | click_removeBtn listItem now =>
      rows ← gets (fun w => completionList (document w));
      match filter (fun r => c_node r = listItem) rows with
      | r :: _ => handleTransfer (c_entryObject r) listItem now
      | [] => mret tt
      end
  | click_tab t => handleTabClick t
  | mousedown_completeButton => handleButtonPress
  | mouseup_completeButton => handleButtonRelease
  | mouseleave_completeButton => handleButtonRelease
  | elapse ms => run_timers ms
  end.

(** An exception that leaves a listener is reported by the browser and the
    page goes on from the world the listener left. *)
Definition dispatch (w : World) (e : event) : World := (listener e w).2.

Definition run (events : list event) (w : World) : World :=
  foldl dispatch w events.

End Script.

(** ** Notions used to state the properties *)

(** *** About the JSON text *)

Definition is_digit_head (s : string) : bool :=
  match s with
  | String c _ => match uint_snoc_char c with Some _ => true | None => false end
  | EmptyString => false
  end.

Definition delimited (rest : string) : Prop :=
  match rest with
  | EmptyString => True
  | String c _ => c = ","%char \/ c = "]"%char \/ c = "}"%char
  end.

Definition member_text (m : string * json) : string :=
  let '(k, x) := m in quote k +:+ ":" +:+ JSON_stringify x.

(** The first character of a printed value tells the parser which value
    follows. *)
Definition number_head (c : ascii) : bool :=
  Ascii.eqb c "-" || match uint_snoc_char c with Some _ => true | None => false end.

Fixpoint weight (v : json) : nat :=
  match v with
  | JArr es => S (sum_list (map (fun e => S (weight e)) es))
  | JObj ms => S (sum_list (map (fun m => let '(_, x) := m in S (weight x)) ms))
  | _ => 1
  end.

Definition roundtrips (v : json) : Prop :=
  forall fuel rest, (weight v <= fuel)%nat -> delimited rest ->
    parse_value fuel (JSON_stringify v +:+ rest) = POk v rest.


(** The fuel that parsing the printed form of a value takes. *)
Definition enough_fuel (v : json) : Prop :=
  (weight v <= 2 * String.length (JSON_stringify v) + 1)%nat.

(** *** About the page *)

(** The persisted sequences: what the two loads return. *)
Definition stored_completed (w : World) : outcome (list CompletedEntry) :=
  (loadCompletedEntries w).1.

Definition stored_given (w : World) : outcome (list GivenEntry) :=
  (loadGivenEntries w).1.

(** What the two lists show: per row its text; for a Completed row also the
    entry its transfer button is bound to. *)
Definition visible_completed (w : World) : list (string * CompletedEntry) :=
  map (fun r => (c_text r, c_entryObject r)) (completionList (document w)).

Definition visible_given (w : World) : list (string * string) :=
  map (fun r => (g_completedText r, g_givenText r)) (givenList (document w)).

(** What the user can observe of the controller and the store. *)
Definition observable (w : World) :=
  (localStorage w, completionList (document w), givenList (document w),
   (tabCompleted_textContent (document w), tabGiven_textContent (document w)),
   (activeTab (document w), completeButton_display (document w)),
   (completeButton_resetClass (document w), completeButton_textContent (document w)),
   isResetMode w).

Definition safe_ids (cs : list CompletedEntry) : Prop :=
  Forall (fun e => is_safe_integer (id e) = true) cs.

(** What a load makes of a slot. *)
Definition read_slot {A} (elem : json -> option A) (slot : option string)
  : outcome (list A) :=
  match slot with
  | Some text =>
      if truthy text then
        match JSON_parse text with
        | Return v => array_of_json elem v
        | Throw e => Throw e
        | Unmodelled => Unmodelled
        end
      else Return []
  | None => Return []
  end.

(** The document after the two loops of [renderList]. *)
Definition cleared (d : Document) : Document :=
  set_givenList (fun _ => []) (set_completionList (fun _ => []) d).

Fixpoint with_completed_rows (entries : list CompletedEntry) (d : Document) : Document :=
  match entries with
  | [] => d
  | e :: entries' =>
      with_completed_rows entries'
        (set_completionList
           (fun rows => rows ++ [{| c_node := next_node d; c_text := content e;
                                    c_entryObject := e |}])
           (bump_next_node d))
  end.

Fixpoint with_given_rows (entries : list GivenEntry) (d : Document) : Document :=
  match entries with
  | [] => d
  | e :: entries' =>
      with_given_rows entries'
        (set_givenList
           (fun rows => rows ++ [{| g_node := next_node d;
                                    g_completedText := completedOn e;
                                    g_givenText := givenOn e |}])
           (bump_next_node d))
  end.

(** What [renderList] shows is a function of the store alone. *)
Definition rendered_completed (w : World) : list (string * CompletedEntry) :=
  match stored_completed w with
  | Return cs => map (fun e => (content e, e)) cs
  | _ => []
  end.

Definition rendered_given (w : World) : list (string * string) :=
  match stored_completed w, stored_given w with
  | Return _, Return gs => map (fun e => (completedOn e, givenOn e)) gs
  | _, _ => []
  end.


(** How a gesture that reads both slots ends. *)
Definition outcome_of_loads (w : World) : outcome unit :=
  match stored_completed w with
  | Return _ =>
      match stored_given w with
      | Return _ => Return tt
      | Throw e => Throw e
      | Unmodelled => Unmodelled
      end
  | Throw e => Throw e
  | Unmodelled => Unmodelled
  end.


(** ** Concrete pages *)

Definition en_US : Z -> string := toLocaleDateString_en_US_UTC.

(** 2024-01-10 and 2024-01-15, 00:00 UTC. *)
Definition jan10 : Z := 1704844800000.
Definition jan15 : Z := 1705276800000.

(** Two adds on an empty page, one millisecond apart. *)
Definition page_two_entries : World :=
  run en_US [click_completeButton jan10 false;
             click_completeButton (jan10 + 1) false] empty_page.

(** The same page after a press held for three seconds. *)
Definition page_armed : World :=
  run en_US [mousedown_completeButton; elapse 3000; mouseup_completeButton]
    page_two_entries.

(** A page whose Completed slot holds text that is not JSON. *)
Definition page_corrupt : World :=
  set_localStorage (insert COMPLETED_STORAGE_KEY "{") empty_page.

(** Two adds within the same millisecond. *)
Definition page_same_instant : World :=
  run en_US [click_completeButton jan10 false;
             click_completeButton jan10 false] empty_page.

Definition entry_jan10 : CompletedEntry :=
  {| id := jan10; content := "Completed on January 10, 2024" |}.

Definition entry_jan10_later : CompletedEntry :=
  {| id := jan10 + 1; content := "Completed on January 10, 2024" |}.

Definition given_jan15 : GivenEntry :=
  {| completedOn := "Completed on January 10, 2024";
     givenOn := "Given on: January 15, 2024" |}.

(** [s] between two quotation marks, for texts that have no character to
    escape. *)
Definition quoted (s : string) : string :=
  String dquote (s +:+ String dquote EmptyString).

(** ** The page against the store *)

(** The labels [updateTabCounts] writes for two sequences. *)
Definition tab_labels (cs : list CompletedEntry) (gs : list GivenEntry) : string * string :=
  ("Completed (" +:+ string_of_Z (Z.of_nat (length cs)) +:+ ")",
   "Given (" +:+ string_of_Z (Z.of_nat (length gs)) +:+ ")").

(** The node numbers of the rows of both lists. *)
Definition item_nodes (d : Document) : list nat :=
  map c_node (completionList d) ++ map g_node (givenList d).

(** The add button looks armed exactly when the controller is. *)
Definition button_shows_mode (w : World) : Prop :=
  completeButton_resetClass (document w) = isResetMode w /\
  completeButton_textContent (document w) = (if isResetMode w then "⟳" else "+").

(** The page shows the store: both slots load, the rows of the two lists are
    the rows of the two persisted sequences, the labels carry their lengths,
    the ids of the Completed entries and the nodes of the rows are pairwise
    distinct, and the button shows the mode. *)
Record consistent (w : World) (cs : list CompletedEntry) (gs : list GivenEntry) : Prop :=
  { completed_loads : stored_completed w = Return cs;
    given_loads : stored_given w = Return gs;
    completed_shown : visible_completed w = map (fun e => (content e, e)) cs;
    given_shown : visible_given w = map (fun e => (completedOn e, givenOn e)) gs;
    labels_shown :
      (tabCompleted_textContent (document w), tabGiven_textContent (document w))
      = tab_labels cs gs;
    ids_distinct : NoDup (map id cs);
    nodes_distinct : NoDup (item_nodes (document w));
    nodes_below_next : Forall (fun n => (n < next_node (document w))%nat)
                         (item_nodes (document w));
    button_mode : button_shows_mode w }.

(** A click that adds comes with a time value that no stored entry has as
    its id. *)
Definition fresh_click (w : World) (e : event) : Prop :=
  match e with
  | click_completeButton now _ =>
      isResetMode w = false ->
      time_value now /\
      forall cs, stored_completed w = Return cs -> now ∉ map id cs
  | _ => True
  end.

Fixpoint fresh_clicks (toLocaleDateString : Z -> string) (w : World)
    (events : list event) : Prop :=
  match events with
  | [] => True
  | e :: events' =>
      fresh_click w e /\
      fresh_clicks toLocaleDateString (dispatch toLocaleDateString w e) events'
  end.

(** The entry and the row that an add at [now] makes, and the Given entry
    and row that a transfer of [e] at [now] makes. *)
Definition new_completed (toLocaleDateString : Z -> string) (now : Z) : CompletedEntry :=
  {| id := now; content := "Completed on " +:+ toLocaleDateString now |}.

Definition new_given (toLocaleDateString : Z -> string) (e : CompletedEntry) (now : Z)
  : GivenEntry :=
  {| completedOn := content e; givenOn := "Given on: " +:+ toLocaleDateString now |}.

Definition completed_item (node : nat) (e : CompletedEntry) : CompletedItem :=
  {| c_node := node; c_text := content e; c_entryObject := e |}.

Definition given_item (node : nat) (e : GivenEntry) : GivenItem :=
  {| g_node := node; g_completedText := completedOn e; g_givenText := givenOn e |}.

(** A page whose Given slot holds text that is not JSON. *)
Definition page_given_corrupt : World :=
  set_localStorage (insert GIVEN_STORAGE_KEY "{") page_two_entries.

(** The store, the rows of the two lists, the labels and the node counter. *)
Definition data (w : World) :=
  (localStorage w, completionList (document w), givenList (document w),
   (tabCompleted_textContent (document w), tabGiven_textContent (document w)),
   next_node (document w)).

(** * Proofs *)

Section Properties.

Variable toLocaleDateString : Z -> string.

(** ** Facts about the JSON printer and parser *)

Lemma append_cons (x : ascii) (a b : string) : String x a +:+ b = String x (a +:+ b).
Proof. reflexivity. Qed.

Lemma append_assoc (a b c : string) : (a +:+ b) +:+ c = a +:+ (b +:+ c).
Proof.
  induction a as [|x a IH]; [reflexivity|].
  by rewrite !append_cons, IH.
Qed.

Lemma length_append (a b : string) :
  String.length (a +:+ b) = (String.length a + String.length b)%nat.
Proof.
  induction a as [|x a IH]; [reflexivity|].
  rewrite append_cons. simpl. by rewrite IH.
Qed.

Lemma parse_chars_quote_char (c : ascii) (t : string) :
  parse_chars (quote_char c +:+ t) = pmap (String c) (parse_chars t).
Proof.
  destruct c as [[] [] [] [] [] [] [] []]; reflexivity.
Qed.

Lemma parse_chars_quote_chars (s rest : string) :
  parse_chars (quote_chars s +:+ String dquote rest) = POk s rest.
Proof.
  induction s as [|c s IH]; [reflexivity|].
  change (quote_chars (String c s)) with (quote_char c +:+ quote_chars s).
  by rewrite append_assoc, parse_chars_quote_char, IH.
Qed.

Lemma parse_chars_quote (s rest : string) :
  exists t, quote s +:+ rest = String dquote t /\ parse_chars t = POk s rest.
Proof.
  exists (quote_chars s +:+ String dquote rest). split.
  - unfold quote. by rewrite append_cons, append_assoc.
  - apply parse_chars_quote_chars.
Qed.

(** *** Numbers *)

Lemma read_digits_string_of_uint (u : Decimal.uint) (rest : string) :
  is_digit_head rest = false ->
  read_digits (NilEmpty.string_of_uint u +:+ rest) = (u, rest).
Proof.
  intros Hrest. induction u; simpl NilEmpty.string_of_uint;
    rewrite ?append_cons; simpl; rewrite ?IHu; try reflexivity.
  destruct rest as [|c r]; [reflexivity|].
  simpl in Hrest. simpl. by destruct (uint_snoc_char c).
Qed.

Lemma to_uint_head (p : positive) :
  match Pos.to_uint p with
  | Decimal.Nil | Decimal.D0 _ => False
  | _ => True
  end.
Proof.
  pose proof (DecimalPos.Unsigned.to_of (Pos.to_uint p)) as H.
  rewrite DecimalPos.Unsigned.of_to in H. simpl in H.
  pose proof (DecimalPos.Unsigned.to_uint_nonnil p) as Hnil.
  pose proof (DecimalPos.Unsigned.to_uint_nonzero p) as Hzero.
  destruct (Pos.to_uint p) as [|u| | | | | | | | | ] eqn:E; try exact I.
  - congruence.
  - rewrite DecimalFacts.unorm_D0 in H.
    unfold Decimal.unorm in H.
    pose proof (DecimalFacts.nzhead_nonzero u) as Hnz.
    destruct (Decimal.nzhead u) eqn:E'; congruence.
Qed.

Lemma delimited_facts (rest : string) :
  delimited rest ->
  is_digit_head rest = false /\ starts_fraction_or_exponent rest = false.
Proof.
  destruct rest as [|c r]; simpl; [done|].
  by intros [-> | [-> | ->]].
Qed.

Lemma parse_unsigned_pos (p : positive) (rest : string) :
  delimited rest ->
  parse_unsigned (NilEmpty.string_of_uint (Pos.to_uint p) +:+ rest) = POk (Z.pos p) rest.
Proof.
  intros [Hd Hf]%delimited_facts.
  pose proof (to_uint_head p) as Hhead.
  pose proof (DecimalPos.Unsigned.of_to p) as Hof.
  pose proof (read_digits_string_of_uint (Pos.to_uint p) rest Hd) as Hread.
  destruct (Pos.to_uint p) as [|u|u|u|u|u|u|u|u|u|u] eqn:E; try done;
    simpl NilEmpty.string_of_uint in *; rewrite append_cons in *;
    unfold parse_unsigned; rewrite Hread;
    (match goal with |- context [Ascii.eqb ?a ?b] => change (Ascii.eqb a b) with false end);
    cbv iota; rewrite Hf; unfold Z.of_uint; by rewrite Hof.
Qed.

Lemma parse_number_string_of_Z (n : Z) (rest : string) :
  delimited rest ->
  parse_number (string_of_Z n +:+ rest) = POk n rest.
Proof.
  intros Hrest. unfold string_of_Z. destruct n as [|p|p]; simpl Z.to_int.
  - destruct (delimited_facts rest Hrest) as [_ Hf].
    simpl NilEmpty.string_of_int. rewrite append_cons.
    change (EmptyString +:+ rest) with rest.
    unfold parse_number, parse_unsigned.
    change (Ascii.eqb "0" "-") with false. change (Ascii.eqb "0" "0") with true.
    cbv iota. by rewrite Hf.
  - simpl NilEmpty.string_of_int.
    pose proof (parse_unsigned_pos p rest Hrest) as H.
    pose proof (to_uint_head p) as Hhead.
    destruct (Pos.to_uint p) eqn:E; try done;
      simpl NilEmpty.string_of_uint in *; rewrite append_cons in *;
      unfold parse_number;
      (match goal with |- context [Ascii.eqb ?a ?b] => change (Ascii.eqb a b) with false end);
      cbv iota; exact H.
  - simpl NilEmpty.string_of_int. rewrite append_cons.
    unfold parse_number. change (Ascii.eqb "-" "-") with true. cbv iota.
    by rewrite parse_unsigned_pos.
Qed.

(** *** Values *)

Lemma append_nil_r (a : string) : a +:+ EmptyString = a.
Proof. induction a as [|x a IH]; [reflexivity|]. by rewrite append_cons, IH. Qed.

Lemma json_ind' (P : json -> Prop) :
  P JNull -> (forall b, P (JBool b)) -> (forall n, P (JNum n)) ->
  (forall s, P (JStr s)) ->
  (forall es, Forall P es -> P (JArr es)) ->
  (forall ms, Forall (fun m => P m.2) ms -> P (JObj ms)) ->
  forall v, P v.
Proof.
  intros HN HB HZ HS HA HO. fix IH 1.
  intros [ | b | n | s | es | ms];
    [exact HN | apply HB | apply HZ | apply HS | | ].
  - apply HA. induction es as [|e es IHes]; constructor; [apply IH | exact IHes].
  - apply HO. induction ms as [|[k x] ms IHms]; constructor; [apply IH | exact IHms].
Qed.

Lemma JSON_stringify_arr (es : list json) :
  JSON_stringify (JArr es) = "[" +:+ String.concat "," (map JSON_stringify es) +:+ "]".
Proof. reflexivity. Qed.

Lemma JSON_stringify_obj (ms : list (string * json)) :
  JSON_stringify (JObj ms) = "{" +:+ String.concat "," (map member_text ms) +:+ "}".
Proof. reflexivity. Qed.

Lemma concat_cons2 (sep x y : string) (l : list string) :
  String.concat sep (x :: y :: l) = x +:+ sep +:+ String.concat sep (y :: l).
Proof. reflexivity. Qed.

Lemma parse_value_S (fuel : nat) (s : string) :
  parse_value (S fuel) s =
  match skip_ws s with
  | EmptyString => PSyntaxError
  | String c r =>
      if Ascii.eqb c dquote then pmap JStr (parse_chars r)
      else if Ascii.eqb c "[" then
        match skip_ws r with
        | String c' r' =>
            if Ascii.eqb c' "]" then POk (JArr []) r'
            else pmap JArr (parse_elements fuel r)
        | EmptyString => PSyntaxError
        end
      else if Ascii.eqb c "{" then
        match skip_ws r with
        | String c' r' =>
            if Ascii.eqb c' "}" then POk (JObj []) r'
            else pmap JObj (parse_members fuel r)
        | EmptyString => PSyntaxError
        end
      else if Ascii.eqb c "t" then expect_literal "true" (JBool true) (String c r)
      else if Ascii.eqb c "f" then expect_literal "false" (JBool false) (String c r)
      else if Ascii.eqb c "n" then expect_literal "null" JNull (String c r)
      else pmap JNum (parse_number (String c r))
  end.
Proof. reflexivity. Qed.

Lemma parse_elements_S (fuel : nat) (s : string) :
  parse_elements (S fuel) s =
  match parse_value fuel s with
  | POk v r =>
      match skip_ws r with
      | String c r' =>
          if Ascii.eqb c "," then pmap (cons v) (parse_elements fuel r')
          else if Ascii.eqb c "]" then POk [v] r'
          else PSyntaxError
      | EmptyString => PSyntaxError
      end
  | PSyntaxError => PSyntaxError
  | PUnmodelled => PUnmodelled
  end.
Proof. reflexivity. Qed.

Lemma parse_members_S (fuel : nat) (s : string) :
  parse_members (S fuel) s =
  match skip_ws s with
  | String q r =>
      if Ascii.eqb q dquote then
        match parse_chars r with
        | POk k r1 =>
            match skip_ws r1 with
            | String colon r2 =>
                if Ascii.eqb colon ":" then
                  match parse_value fuel r2 with
                  | POk v r3 =>
                      match skip_ws r3 with
                      | String c r4 =>
                          if Ascii.eqb c ","
                          then pmap (cons (k, v)) (parse_members fuel r4)
                          else if Ascii.eqb c "}" then POk [(k, v)] r4
                          else PSyntaxError
                      | EmptyString => PSyntaxError
                      end
                  | PSyntaxError => PSyntaxError
                  | PUnmodelled => PUnmodelled
                  end
                else PSyntaxError
            | EmptyString => PSyntaxError
            end
        | PSyntaxError => PSyntaxError
        | PUnmodelled => PUnmodelled
        end
      else PSyntaxError
  | EmptyString => PSyntaxError
  end.
Proof. reflexivity. Qed.

Lemma number_head_facts (c : ascii) :
  number_head c = true ->
  is_ws c = false /\ Ascii.eqb c dquote = false /\ Ascii.eqb c "[" = false /\
  Ascii.eqb c "{" = false /\ Ascii.eqb c "t" = false /\ Ascii.eqb c "f" = false /\
  Ascii.eqb c "n" = false /\ Ascii.eqb c "]" = false /\ Ascii.eqb c "}" = false.
Proof.
  destruct c as [[] [] [] [] [] [] [] []]; vm_compute; intros H;
    first [discriminate H | repeat split].
Qed.

Lemma string_of_Z_head (n : Z) :
  exists c t, string_of_Z n = String c t /\ number_head c = true.
Proof.
  unfold string_of_Z. destruct n as [|p|p]; simpl Z.to_int.
  - by exists "0"%char, EmptyString.
  - pose proof (to_uint_head p) as H. simpl NilEmpty.string_of_int.
    destruct (Pos.to_uint p); try done; simpl; eauto.
  - simpl. eauto.
Qed.

Lemma stringify_head (v : json) :
  exists c t, JSON_stringify v = String c t /\ is_ws c = false /\
              Ascii.eqb c "]" = false /\ Ascii.eqb c "}" = false.
Proof.
  destruct v as [ | [] | n | s | es | ms].
  - by exists "n"%char, "ull".
  - by exists "t"%char, "rue".
  - by exists "f"%char, "alse".
  - destruct (string_of_Z_head n) as (c & t & E & Hc).
    apply number_head_facts in Hc. exists c, t. simpl. rewrite E. tauto.
  - by exists dquote, (quote_chars s +:+ String dquote EmptyString).
  - by exists "["%char, (String.concat "," (map JSON_stringify es) +:+ "]").
  - by exists "{"%char, (String.concat "," (map member_text ms) +:+ "}").
Qed.

Lemma skip_ws_cons (c : ascii) (r : string) :
  is_ws c = false -> skip_ws (String c r) = String c r.
Proof. intros H. simpl. by rewrite H. Qed.

Lemma parse_elements_stringify (es : list json) :
  Forall roundtrips es -> es <> [] ->
  forall fuel rest,
    (sum_list (map (fun e => S (weight e)) es) <= fuel)%nat ->
    parse_elements fuel (String.concat "," (map JSON_stringify es) +:+ String "]" rest)
    = POk es rest.
Proof.
  induction 1 as [|e es He Hes IH]; [done|]. intros _ fuel rest Hfuel.
  simpl in Hfuel. destruct fuel as [|fuel]; [lia|]. rewrite parse_elements_S.
  destruct es as [|e2 es].
  - simpl map. simpl String.concat.
    rewrite He; [|lia|simpl; tauto]. reflexivity.
  - rewrite !map_cons, concat_cons2, <- !map_cons, !append_assoc, append_cons.
    rewrite He; [|lia|simpl; tauto].
    rewrite skip_ws_cons by reflexivity.
    change (Ascii.eqb "," ",") with true. cbv iota.
    change (EmptyString +:+ ?x) with x.
    rewrite IH; [reflexivity|done|]. simpl in *. lia.
Qed.

Lemma parse_members_stringify (ms : list (string * json)) :
  Forall (fun m => roundtrips m.2) ms -> ms <> [] ->
  forall fuel rest,
    (sum_list (map (fun m => let '(_, x) := m in S (weight x)) ms) <= fuel)%nat ->
    parse_members fuel (String.concat "," (map member_text ms) +:+ String "}" rest)
    = POk ms rest.
Proof.
  induction 1 as [|[k x] ms Hm Hms IH]; [done|]. intros _ fuel rest Hfuel.
  simpl in Hfuel, Hm. destruct fuel as [|fuel]; [lia|]. rewrite parse_members_S.
  assert (Hkey : forall tail,
    match skip_ws (member_text (k, x) +:+ tail) with
    | String q r =>
        q = dquote /\ parse_chars r = POk k (String ":" (JSON_stringify x +:+ tail))
    | EmptyString => False
    end).
  { intros tail. unfold member_text. rewrite append_assoc.
    destruct (parse_chars_quote k ((":" +:+ JSON_stringify x) +:+ tail))
      as (t & -> & Ht).
    rewrite skip_ws_cons by reflexivity. split; [reflexivity|].
    by rewrite Ht, append_assoc, append_cons. }
  destruct ms as [|m2 ms].
  - simpl map. simpl String.concat.
    specialize (Hkey (String "}" rest)).
    destruct (skip_ws _) as [|q r]; [done|]. destruct Hkey as [-> ->].
    change (Ascii.eqb dquote dquote) with true. cbv iota.
    rewrite skip_ws_cons by reflexivity.
    change (Ascii.eqb ":" ":") with true. cbv iota.
    rewrite Hm; [|lia|simpl; tauto]. reflexivity.
  - rewrite !map_cons, concat_cons2, <- !map_cons, !append_assoc, append_cons.
    change (EmptyString +:+ ?y) with y.
    match goal with |- context [member_text (k, x) +:+ ?tail] =>
      specialize (Hkey tail) end.
    destruct (skip_ws _) as [|q r]; [done|]. destruct Hkey as [-> ->].
    change (Ascii.eqb dquote dquote) with true. cbv iota.
    rewrite skip_ws_cons by reflexivity.
    change (Ascii.eqb ":" ":") with true. cbv iota.
    rewrite Hm; [|lia|simpl; tauto].
    rewrite skip_ws_cons by reflexivity.
    change (Ascii.eqb "," ",") with true. cbv iota.
    rewrite IH; [reflexivity|done|]. simpl in *. lia.
Qed.

Lemma parse_value_stringify (v : json) : roundtrips v.
Proof.
  induction v as [ | b | n | s | es IH | ms IH] using json_ind';
    intros fuel rest Hfuel Hrest;
    (destruct fuel as [|fuel]; [simpl in Hfuel; lia|]).
  - reflexivity.
  - by destruct b.
  - destruct (string_of_Z_head n) as (c & t & E & Hc).
    apply number_head_facts in Hc as (H1 & H2 & H3 & H4 & H5 & H6 & H7 & _).
    rewrite parse_value_S. simpl JSON_stringify. rewrite E, append_cons.
    rewrite skip_ws_cons by done. rewrite H2, H3, H4, H5, H6, H7.
    rewrite <- append_cons, <- E. by rewrite parse_number_string_of_Z.
  - rewrite parse_value_S. simpl JSON_stringify.
    destruct (parse_chars_quote s rest) as (t & -> & Ht).
    rewrite skip_ws_cons by reflexivity.
    change (Ascii.eqb dquote dquote) with true. cbv iota. by rewrite Ht.
  - rewrite parse_value_S, JSON_stringify_arr, !append_assoc, append_cons.
    change (EmptyString +:+ ?y) with y.
    rewrite skip_ws_cons by reflexivity.
    change (Ascii.eqb "[" dquote) with false. change (Ascii.eqb "[" "[") with true.
    cbv iota. destruct es as [|e es]; [reflexivity|].
    destruct (stringify_head e) as (c & t & E & Hc1 & Hc2 & _).
    assert (Hhead : exists t', String.concat "," (map JSON_stringify (e :: es))
                                 +:+ String "]" rest = String c t').
    { destruct es; simpl map; simpl String.concat;
        rewrite E, ?append_cons; eauto. }
    destruct Hhead as (t' & Hhead). rewrite append_cons.
    change (EmptyString +:+ rest) with rest.
    pose proof (f_equal skip_ws Hhead) as Hs.
    rewrite skip_ws_cons in Hs by done. rewrite Hs, Hc2.
    rewrite parse_elements_stringify; [reflexivity|done|done|].
    simpl in Hfuel. simpl. lia.
  - rewrite parse_value_S, JSON_stringify_obj, !append_assoc, append_cons.
    change (EmptyString +:+ ?y) with y.
    rewrite skip_ws_cons by reflexivity.
    change (Ascii.eqb "{" dquote) with false. change (Ascii.eqb "{" "[") with false.
    change (Ascii.eqb "{" "{") with true.
    cbv iota. destruct ms as [|[k x] ms]; [reflexivity|].
    assert (Hhead : exists t', String.concat "," (map member_text ((k, x) :: ms))
                                 +:+ String "}" rest = String dquote t').
    { destruct ms; simpl map; simpl String.concat; unfold member_text, quote;
        rewrite ?append_cons; eauto. }
    destruct Hhead as (t' & Hhead). rewrite append_cons.
    change (EmptyString +:+ rest) with rest.
    pose proof (f_equal skip_ws Hhead) as Hs.
    rewrite skip_ws_cons in Hs by done. rewrite Hs.
    change (Ascii.eqb dquote "}") with false.
    cbv iota.
    rewrite parse_members_stringify; [reflexivity|done|done|].
    simpl in Hfuel. simpl. lia.
Qed.

Lemma sum_weight_le_length {A} (text : A -> string) (wt : A -> nat) (l : list A) :
  Forall (fun a => (wt a <= 2 * String.length (text a) + 1)%nat) l ->
  (sum_list (map (fun a => S (wt a)) l)
   <= 2 * String.length (String.concat "," (map text l)) + 2)%nat.
Proof.
  induction 1 as [|a l Ha Hl IH]; [simpl; lia|].
  destruct l as [|b l].
  - simpl. lia.
  - rewrite (map_cons text), (map_cons text b), concat_cons2, <- (map_cons text b).
    set (C := String.concat "," (map text (b :: l))) in *.
    rewrite !length_append. simpl in *. lia.
Qed.

Lemma weight_le_length (v : json) : enough_fuel v.
Proof.
  unfold enough_fuel.
  induction v as [ | b | n | s | es IH | ms IH] using json_ind';
    try (simpl weight; lia).
  - rewrite JSON_stringify_arr, !length_append.
    pose proof (sum_weight_le_length JSON_stringify weight es IH).
    simpl in *. lia.
  - rewrite JSON_stringify_obj, !length_append.
    pose proof (sum_weight_le_length member_text (fun m => weight m.2) ms) as H.
    assert (Heq : map (fun m : string * json => let '(_, x) := m in S (weight x)) ms
                  = map (fun a => S (weight a.2)) ms).
    { apply map_ext. by intros []. }
    simpl weight. rewrite Heq. simpl String.length.
    cut (sum_list (map (fun a => S (weight a.2)) ms)
         <= 2 * String.length (String.concat "," (map member_text ms)) + 2)%nat; [lia|].
    apply H. eapply Forall_impl; [exact IH|].
    intros [k x] Hx. simpl in *. rewrite !length_append. lia.
Qed.

(** Parsing what [JSON.stringify] printed gives the value back. *)
Lemma JSON_parse_stringify (v : json) : JSON_parse (JSON_stringify v) = Return v.
Proof.
  unfold JSON_parse.
  rewrite <- (append_nil_r (JSON_stringify v)) at 2.
  rewrite parse_value_stringify; [reflexivity| |exact I].
  pose proof (weight_le_length v). unfold enough_fuel, parse_fuel in *. lia.
Qed.

Example JSON_stringify_entry :
  JSON_stringify (JArr [json_of_completed entry_jan10])
  = "[{" +:+ quoted "id" +:+ ":1704844800000," +:+ quoted "content" +:+ ":"
         +:+ quoted "Completed on January 10, 2024" +:+ "}]".
Proof. reflexivity. Qed.

Example JSON_parse_accepts :
  map JSON_parse ["[]"; " [ ] "; "[true,false , null]"; "-0"; "[10, [2]]"]
  = [Return (JArr []); Return (JArr []);
     Return (JArr [JBool true; JBool false; JNull]); Return (JNum 0);
     Return (JArr [JNum 10; JArr [JNum 2]])].
Proof. reflexivity. Qed.

Example JSON_parse_rejects :
  Forall (fun text => JSON_parse text = Throw SyntaxError)
    [""; "{"; "[1,]"; "01"; "nul"; "[1 2]"; "not json"; "[1]]"; "-"; "[1"].
Proof. repeat constructor. Qed.

Example JSON_parse_leaves_out : JSON_parse "[1.5]" = Unmodelled.
Proof. reflexivity. Qed.

Lemma JSON_stringify_truthy (v : json) : truthy (JSON_stringify v) = true.
Proof. destruct (stringify_head v) as (c & t & -> & _). reflexivity. Qed.

(** *** The typed reading *)

Lemma completed_of_json_of_completed (e : CompletedEntry) :
  is_safe_integer (id e) = true ->
  completed_of_json (json_of_completed e) = Some e.
Proof. intros H. destruct e as [i c]. simpl in *. by rewrite H. Qed.

Lemma given_of_json_of_given (e : GivenEntry) :
  given_of_json (json_of_given e) = Some e.
Proof. by destruct e. Qed.

Lemma array_of_json_completed (cs : list CompletedEntry) :
  safe_ids cs ->
  array_of_json completed_of_json (JArr (map json_of_completed cs)) = Return cs.
Proof.
  intros H. unfold array_of_json.
  assert (mapM completed_of_json (map json_of_completed cs) = Some cs) as ->; [|done].
  apply (mapM_fmap_Forall_Some completed_of_json json_of_completed).
  eapply Forall_impl; [exact H|]. apply completed_of_json_of_completed.
Qed.

Lemma array_of_json_given (gs : list GivenEntry) :
  array_of_json given_of_json (JArr (map json_of_given gs)) = Return gs.
Proof.
  unfold array_of_json.
  assert (mapM given_of_json (map json_of_given gs) = Some gs) as ->; [|done].
  apply (mapM_fmap_Some given_of_json json_of_given), given_of_json_of_given.
Qed.

Lemma completed_of_json_safe (v : json) (e : CompletedEntry) :
  completed_of_json v = Some e -> is_safe_integer (id e) = true.
Proof.
  destruct v as [ | | | | |[|[k1 [ | |n| | | ]] [|[k2 [ | | |c| | ]] [|]]]]; try done.
  simpl. destruct (String.eqb k1 "id" && String.eqb k2 "content") ; simpl; [|done].
  destruct (is_safe_integer n) eqn:E; [|done]. by intros [= <-].
Qed.

Lemma array_of_json_completed_safe (v : json) (cs : list CompletedEntry) :
  array_of_json completed_of_json v = Return cs -> safe_ids cs.
Proof.
  destruct v as [ | | | |es| ]; try done. unfold array_of_json.
  destruct (mapM completed_of_json es) as [l|] eqn:E; [|done]. intros [= <-].
  apply mapM_Some in E. unfold safe_ids.
  induction E as [|v e es l Hv _ IH]; constructor; [|exact IH].
  by eapply completed_of_json_safe.
Qed.

(** ** Running the script *)

Lemma bind_eq {A B} (m : M A) (f : A -> M B) (w : World) :
  (m ≫= f) w =
  match m w with
  | (Return a, w') => f a w'
  | (Throw e, w') => (Throw e, w')
  | (Unmodelled, w') => (Unmodelled, w')
  end.
Proof. reflexivity. Qed.

(** One statement of the script: unfold the bind at the head and let the
    state setters act. *)
Ltac step := rewrite bind_eq; simpl.

(** *** Loads *)

Lemma loadCompletedEntries_eq (w : World) :
  loadCompletedEntries w
  = (read_slot completed_of_json (localStorage w !! COMPLETED_STORAGE_KEY), w).
Proof.
  unfold loadCompletedEntries, read_slot. step.
  destruct (localStorage w !! COMPLETED_STORAGE_KEY) as [text|]; [|reflexivity].
  destruct (truthy text); [|reflexivity].
  rewrite bind_eq. unfold lift. by destruct (JSON_parse text).
Qed.

Lemma loadGivenEntries_eq (w : World) :
  loadGivenEntries w
  = (read_slot given_of_json (localStorage w !! GIVEN_STORAGE_KEY), w).
Proof.
  unfold loadGivenEntries, read_slot. step.
  destruct (localStorage w !! GIVEN_STORAGE_KEY) as [text|]; [|reflexivity].
  destruct (truthy text); [|reflexivity].
  rewrite bind_eq. unfold lift. by destruct (JSON_parse text).
Qed.

Lemma stored_completed_eq (w : World) :
  stored_completed w = read_slot completed_of_json (localStorage w !! COMPLETED_STORAGE_KEY).
Proof. unfold stored_completed. by rewrite loadCompletedEntries_eq. Qed.

Lemma stored_given_eq (w : World) :
  stored_given w = read_slot given_of_json (localStorage w !! GIVEN_STORAGE_KEY).
Proof. unfold stored_given. by rewrite loadGivenEntries_eq. Qed.

Lemma read_slot_saved_completed (cs : list CompletedEntry) :
  safe_ids cs ->
  read_slot completed_of_json (Some (JSON_stringify (JArr (map json_of_completed cs))))
  = Return cs.
Proof.
  intros H. unfold read_slot.
  by rewrite JSON_stringify_truthy, JSON_parse_stringify, array_of_json_completed.
Qed.

Lemma read_slot_saved_given (gs : list GivenEntry) :
  read_slot given_of_json (Some (JSON_stringify (JArr (map json_of_given gs))))
  = Return gs.
Proof.
  unfold read_slot.
  by rewrite JSON_stringify_truthy, JSON_parse_stringify, array_of_json_given.
Qed.

Lemma read_slot_safe (slot : option string) (cs : list CompletedEntry) :
  read_slot completed_of_json slot = Return cs -> safe_ids cs.
Proof.
  unfold read_slot. destruct slot as [text|]; [|intros [= <-]; constructor].
  destruct (truthy text); [|intros [= <-]; constructor].
  destruct (JSON_parse text); [|done..]. apply array_of_json_completed_safe.
Qed.

Lemma stored_completed_safe (w : World) (cs : list CompletedEntry) :
  stored_completed w = Return cs -> safe_ids cs.
Proof. rewrite stored_completed_eq. apply read_slot_safe. Qed.

Lemma keys_differ : COMPLETED_STORAGE_KEY <> GIVEN_STORAGE_KEY.
Proof. done. Qed.

#[local] Arguments JSON_stringify : simpl never.
#[local] Arguments JSON_parse : simpl never.
#[local] Arguments loadCompletedEntries : simpl never.
#[local] Arguments loadGivenEntries : simpl never.
#[local] Arguments string_of_Z : simpl never.
#[local] Arguments read_slot : simpl never.
#[local] Arguments json_of_given : simpl never.
#[local] Arguments json_of_completed : simpl never.

Lemma updateTabCounts_eq (w : World) :
  updateTabCounts w =
  match stored_completed w with
  | Return cs =>
      match stored_given w with
      | Return gs =>
          (Return tt,
           set_document (set_tab_texts
             ("Completed (" +:+ string_of_Z (Z.of_nat (length cs)) +:+ ")")
             ("Given (" +:+ string_of_Z (Z.of_nat (length gs)) +:+ ")")) w)
      | Throw e => (Throw e, w)
      | Unmodelled => (Unmodelled, w)
      end
  | Throw e => (Throw e, w)
  | Unmodelled => (Unmodelled, w)
  end.
Proof.
  unfold updateTabCounts. rewrite bind_eq, loadCompletedEntries_eq, <- stored_completed_eq.
  destruct (stored_completed w); [|reflexivity..].
  rewrite bind_eq, loadGivenEntries_eq, <- stored_given_eq.
  by destruct (stored_given w).
Qed.

Lemma safe_ids_filter (P : CompletedEntry -> Prop) `{forall x, Decision (P x)}
    (cs : list CompletedEntry) :
  safe_ids cs -> safe_ids (filter P cs).
Proof.
  unfold safe_ids. rewrite !Forall_forall.
  intros Hcs x [_ Hx]%list_elem_of_filter. by apply Hcs.
Qed.

(** The store after a transfer, and the rows of the two lists. *)
Lemma handleTransfer_returns (w : World) (cs : list CompletedEntry)
    (gs : list GivenEntry) (e : CompletedEntry) (listItem : nat) (now : Z) :
  stored_completed w = Return cs ->
  stored_given w = Return gs ->
  let g := {| completedOn := content e;
              givenOn := "Given on: " +:+ toLocaleDateString now |} in
  exists w',
    handleTransfer toLocaleDateString e listItem now w = (Return tt, w') /\
    stored_completed w' = Return (filter (fun x => id x ≠ id e) cs) /\
    stored_given w' = Return (g :: gs) /\
    completionList (document w')
      = filter (fun r => c_node r ≠ listItem) (completionList (document w)) /\
    givenList (document w')
      = {| g_node := next_node (document w);
           g_completedText := completedOn g; g_givenText := givenOn g |}
        :: filter (fun r => g_node r ≠ listItem) (givenList (document w)).
Proof.
  intros Hc Hg g.
  pose proof (stored_completed_safe w cs Hc) as Hsafe.
  pose proof (read_slot_saved_given (g :: gs)) as Hrg. rewrite map_cons in Hrg.
  subst g.
  pose proof (read_slot_saved_completed (filter (fun x => id x ≠ id e) cs)
                (safe_ids_filter _ cs Hsafe)) as Hrc.
  rewrite stored_completed_eq in Hc. rewrite stored_given_eq in Hg.
  unfold handleTransfer. step.
  rewrite bind_eq, loadCompletedEntries_eq. simpl. rewrite Hc.
  do 3 step.
  rewrite bind_eq, loadGivenEntries_eq. simpl.
  rewrite lookup_insert_ne by apply keys_differ. rewrite Hg.
  step.
  rewrite updateTabCounts_eq, stored_completed_eq, stored_given_eq. simpl.
  rewrite lookup_insert_ne by (symmetry; apply keys_differ).
  rewrite !lookup_insert_eq.
  rewrite Hrc, Hrg.
  eexists. split; [reflexivity|].
  rewrite stored_completed_eq, stored_given_eq. simpl.
  rewrite lookup_insert_ne by (symmetry; apply keys_differ).
  rewrite !lookup_insert_eq.
  rewrite Hrc, Hrg.
  done.
Qed.

Lemma time_value_safe (t : Z) : time_value t -> is_safe_integer t = true.
Proof.
  unfold time_value, is_safe_integer, MAX_SAFE_INTEGER. intros [H1 H2].
  apply andb_true_intro. split; apply Z.leb_le; lia.
Qed.

(** The store and the Completed list after an add, whatever the Given slot
    holds. *)
Lemma handleAddEntry_world (w : World) (cs : list CompletedEntry) (now : Z) :
  time_value now ->
  stored_completed w = Return cs ->
  let newEntry := {| id := now; content := "Completed on " +:+ toLocaleDateString now |} in
  let w' := (handleAddEntry toLocaleDateString now w).2 in
  stored_completed w' = Return (newEntry :: cs) /\
  stored_given w' = stored_given w /\
  completionList (document w')
    = {| c_node := next_node (document w); c_text := content newEntry;
         c_entryObject := newEntry |} :: completionList (document w) /\
  (handleAddEntry toLocaleDateString now w).1 = match stored_given w with
                             | Return _ => Return tt
                             | Throw e => Throw e
                             | Unmodelled => Unmodelled
                             end.
Proof.
  intros Hnow Hc newEntry.
  pose proof (stored_completed_safe w cs Hc) as Hsafe.
  assert (Hsafe' : safe_ids (newEntry :: cs)).
  { constructor; [by apply time_value_safe|done]. }
  pose proof (read_slot_saved_completed _ Hsafe') as Hrc. rewrite map_cons in Hrc.
  subst newEntry.
  rewrite stored_completed_eq in Hc.
  unfold handleAddEntry. step.
  step. rewrite bind_eq, loadCompletedEntries_eq. simpl.
  rewrite Hc. step.
  rewrite updateTabCounts_eq, !stored_completed_eq, !stored_given_eq. simpl.
  rewrite lookup_insert_eq, Hrc.
  rewrite lookup_insert_ne by apply keys_differ.
  destruct (read_slot given_of_json (localStorage w !! GIVEN_STORAGE_KEY)) eqn:Eg;
    simpl; rewrite ?lookup_insert_eq, ?Hrc;
    rewrite ?lookup_insert_ne by apply keys_differ; by rewrite ?Eg.
Qed.

(** *** renderList *)

Lemma forEach_completed_rows (entries : list CompletedEntry) (w : World) :
  forEach entries (fun entryObject =>
    listItem ← createCompletedListItem entryObject;
    modify (set_document (set_completionList (fun rows => rows ++ [listItem])))) w
  = (Return tt, set_document (with_completed_rows entries) w).
Proof.
  revert w. induction entries as [|e entries IH]; intros w; [by destruct w|].
  simpl forEach. step. rewrite IH. by destruct w.
Qed.

Lemma forEach_given_rows (entries : list GivenEntry) (w : World) :
  forEach entries (fun entryObject =>
    listItem ← createGivenListItem entryObject;
    modify (set_document (set_givenList (fun rows => rows ++ [listItem])))) w
  = (Return tt, set_document (with_given_rows entries) w).
Proof.
  revert w. induction entries as [|e entries IH]; intros w; [by destruct w|].
  simpl forEach. step. rewrite IH. by destruct w.
Qed.

Lemma renderList_eq (w : World) :
  renderList w =
  match stored_completed w with
  | Return cs =>
      let w1 := set_document (fun d => with_completed_rows cs (cleared d)) w in
      match stored_given w with
      | Return gs =>
          (Return tt,
           set_document (fun d => with_given_rows gs (with_completed_rows cs (cleared d))) w)
      | Throw e => (Throw e, w1)
      | Unmodelled => (Unmodelled, w1)
      end
  | Throw e => (Throw e, set_document cleared w)
  | Unmodelled => (Unmodelled, set_document cleared w)
  end.
Proof.
  unfold renderList. step. step.
  rewrite bind_eq, loadCompletedEntries_eq, !stored_completed_eq, !stored_given_eq.
  simpl.
  destruct (read_slot completed_of_json _) as [cs| |]; [|reflexivity..].
  rewrite bind_eq, forEach_completed_rows. simpl.
  rewrite bind_eq, loadGivenEntries_eq. simpl.
  destruct (read_slot given_of_json _) as [gs| |]; [|reflexivity..].
  by rewrite forEach_given_rows.
Qed.

Lemma with_completed_rows_lists (cs : list CompletedEntry) (d : Document) :
  map (fun r => (c_text r, c_entryObject r)) (completionList (with_completed_rows cs d))
  = map (fun r => (c_text r, c_entryObject r)) (completionList d)
    ++ map (fun e => (content e, e)) cs /\
  givenList (with_completed_rows cs d) = givenList d.
Proof.
  revert d. induction cs as [|e cs IH]; intros d; simpl.
  - by rewrite app_nil_r.
  - destruct (IH (set_completionList
        (fun rows => rows ++ [{| c_node := next_node d; c_text := content e;
                                 c_entryObject := e |}])
        (bump_next_node d))) as [-> ->].
    simpl. by rewrite map_app, <- app_assoc.
Qed.

Lemma with_given_rows_lists (gs : list GivenEntry) (d : Document) :
  map (fun r => (g_completedText r, g_givenText r)) (givenList (with_given_rows gs d))
  = map (fun r => (g_completedText r, g_givenText r)) (givenList d)
    ++ map (fun e => (completedOn e, givenOn e)) gs /\
  completionList (with_given_rows gs d) = completionList d.
Proof.
  revert d. induction gs as [|e gs IH]; intros d; simpl.
  - by rewrite app_nil_r.
  - destruct (IH (set_givenList
        (fun rows => rows ++ [{| g_node := next_node d;
                                 g_completedText := completedOn e;
                                 g_givenText := givenOn e |}])
        (bump_next_node d))) as [-> ->].
    simpl. by rewrite map_app, <- app_assoc.
Qed.

Lemma renderList_visible (w : World) :
  let w' := (renderList w).2 in
  localStorage w' = localStorage w /\
  visible_completed w' = rendered_completed w /\
  visible_given w' = rendered_given w.
Proof.
  unfold visible_completed, visible_given, rendered_completed, rendered_given.
  rewrite renderList_eq.
  destruct (stored_completed w) as [cs| |]; [|done..].
  destruct (stored_given w) as [gs| |]; simpl.
  - destruct (with_given_rows_lists gs (with_completed_rows cs (cleared (document w))))
      as [-> ->].
    by destruct (with_completed_rows_lists cs (cleared (document w))) as [-> ->].
  - by destruct (with_completed_rows_lists cs (cleared (document w))) as [-> ->].
  - by destruct (with_completed_rows_lists cs (cleared (document w))) as [-> ->].
Qed.

(** *** Outcomes of the gestures *)

Lemma updateTabCounts_outcome (w : World) :
  (updateTabCounts w).1 = outcome_of_loads w.
Proof.
  rewrite updateTabCounts_eq. unfold outcome_of_loads.
  destruct (stored_completed w); [|done..]. by destruct (stored_given w).
Qed.

Lemma renderList_outcome (w : World) :
  (renderList w).1 = outcome_of_loads w.
Proof.
  rewrite renderList_eq. unfold outcome_of_loads.
  destruct (stored_completed w); [|done..]. by destruct (stored_given w).
Qed.

Lemma handleTransfer_outcome (w : World) (e : CompletedEntry) (listItem : nat) (now : Z) :
  (handleTransfer toLocaleDateString e listItem now w).1 = outcome_of_loads w.
Proof.
  unfold outcome_of_loads.
  destruct (stored_completed w) as [cs| |] eqn:Hc.
  - destruct (stored_given w) as [gs| |] eqn:Hg.
    + destruct (handleTransfer_returns w cs gs e listItem now Hc Hg) as (w' & -> & _).
      reflexivity.
    + rewrite stored_completed_eq in Hc. rewrite stored_given_eq in Hg.
      unfold handleTransfer. step.
      rewrite bind_eq, loadCompletedEntries_eq. simpl. rewrite Hc.
      do 3 step.
      rewrite bind_eq, loadGivenEntries_eq. simpl.
      rewrite lookup_insert_ne by apply keys_differ. by rewrite Hg.
    + rewrite stored_completed_eq in Hc. rewrite stored_given_eq in Hg.
      unfold handleTransfer. step.
      rewrite bind_eq, loadCompletedEntries_eq. simpl. rewrite Hc.
      do 3 step.
      rewrite bind_eq, loadGivenEntries_eq. simpl.
      rewrite lookup_insert_ne by apply keys_differ. by rewrite Hg.
  - rewrite stored_completed_eq in Hc.
    unfold handleTransfer. step.
    rewrite bind_eq, loadCompletedEntries_eq. simpl. by rewrite Hc.
  - rewrite stored_completed_eq in Hc.
    unfold handleTransfer. step.
    rewrite bind_eq, loadCompletedEntries_eq. simpl. by rewrite Hc.
Qed.

Lemma handleAddEntry_throws (w : World) (now : Z) (e : exn) :
  stored_completed w = Throw e -> (handleAddEntry toLocaleDateString now w).1 = Throw e.
Proof.
  intros Hc. rewrite stored_completed_eq in Hc.
  unfold handleAddEntry. step.
  step. rewrite bind_eq, loadCompletedEntries_eq. simpl.
  by rewrite Hc.
Qed.

(** *** Reset *)

Lemma handleReset_confirmed (w : World) :
  exists w',
    handleReset true w = (Return tt, w') /\
    isResetMode w' = false /\
    completeButton_resetClass (document w') = false /\
    stored_completed w' = Return [] /\
    stored_given w' = Return [] /\
    completionList (document w') = [] /\
    givenList (document w') = [] /\
    tabCompleted_textContent (document w') = "Completed (0)" /\
    tabGiven_textContent (document w') = "Given (0)".
Proof.
  pose proof (read_slot_saved_completed [] (List.Forall_nil _)) as Hrc.
  pose proof (read_slot_saved_given []) as Hrg. simpl in Hrc, Hrg.
  unfold handleReset. rewrite bind_eq. step.
  step. rewrite bind_eq.
  rewrite renderList_eq, stored_completed_eq, stored_given_eq. simpl.
  rewrite lookup_insert_eq.
  rewrite lookup_insert_ne by (symmetry; apply keys_differ).
  rewrite lookup_insert_eq, Hrc, Hrg. simpl.
  rewrite updateTabCounts_eq, stored_completed_eq, stored_given_eq. simpl.
  rewrite lookup_insert_eq.
  rewrite lookup_insert_ne by (symmetry; apply keys_differ).
  rewrite lookup_insert_eq, Hrc, Hrg. simpl.
  eexists. split; [reflexivity|].
  rewrite stored_completed_eq, stored_given_eq. simpl.
  rewrite lookup_insert_eq.
  rewrite lookup_insert_ne by (symmetry; apply keys_differ).
  by rewrite lookup_insert_eq, Hrc, Hrg.
Qed.

(** ** The properties of the specification *)

(** C1. For a store whose two slots load as [cs] and [gs] and an entry [e] of
    [cs], [handleTransfer e] returns; afterwards no entry of the persisted
    Completed sequence has the id of [e], the persisted Given sequence is one
    element longer, and its first element has [completedOn = e.content] and
    [givenOn] equal to "Given on: " followed by the formatted date. *)
Theorem transfer_moves_entry (w : World) (cs : list CompletedEntry)
    (gs : list GivenEntry) (e : CompletedEntry) (listItem : nat) (now : Z) :
  stored_completed w = Return cs ->
  stored_given w = Return gs ->
  e ∈ cs ->
  exists w' cs' gs',
    handleTransfer toLocaleDateString e listItem now w = (Return tt, w') /\
    stored_completed w' = Return cs' /\
    (id e ∉ map id cs') /\
    stored_given w' = Return gs' /\
    length gs' = S (length gs) /\
    (completedOn <$> head gs') = Some (content e) /\
    (givenOn <$> head gs') = Some ("Given on: " +:+ toLocaleDateString now).
Proof.
  intros Hc Hg _.
  destruct (handleTransfer_returns w cs gs e listItem now Hc Hg)
    as (w' & Hrun & Hc' & Hg' & _).
  eexists w', _, _. split; [exact Hrun|]. split; [exact Hc'|].
  split; [|by rewrite Hg'].
  intros (x & Hid & [Hx _]%list_elem_of_filter)%list_elem_of_fmap. by apply Hx.
Qed.

(** C2. When the id of [e] does not occur in the persisted Completed
    sequence, [handleTransfer e] leaves that sequence as it is and still puts
    the derived entry at the head of the persisted Given sequence. *)
Theorem transfer_of_absent_id (w : World) (cs : list CompletedEntry)
    (gs : list GivenEntry) (e : CompletedEntry) (listItem : nat) (now : Z) :
  stored_completed w = Return cs ->
  stored_given w = Return gs ->
  id e ∉ map id cs ->
  exists w',
    handleTransfer toLocaleDateString e listItem now w = (Return tt, w') /\
    stored_completed w' = Return cs /\
    stored_given w'
      = Return ({| completedOn := content e;
                   givenOn := "Given on: " +:+ toLocaleDateString now |} :: gs).
Proof.
  intros Hc Hg Habsent.
  destruct (handleTransfer_returns w cs gs e listItem now Hc Hg)
    as (w' & Hrun & Hc' & Hg' & _).
  exists w'. split; [exact Hrun|]. split; [|exact Hg'].
  rewrite Hc'. f_equal.
  clear -Habsent. induction cs as [|x cs IH]; [done|].
  simpl in Habsent. apply not_elem_of_cons in Habsent as [Hx Hcs].
  rewrite filter_cons_True by done. f_equal. by apply IH.
Qed.

(** C3. Adding at time [now] creates one entry with [id = now] and content
    "Completed on " followed by the formatted date, and puts it at index 0 of
    the persisted Completed sequence; two adds at [t1] then [t2] leave the
    entry of [t2] before the entry of [t1]. *)
Theorem add_prepends_entry (w : World) (cs : list CompletedEntry) (t1 t2 : Z) :
  time_value t1 -> time_value t2 ->
  stored_completed w = Return cs ->
  let entry t := {| id := t; content := "Completed on " +:+ toLocaleDateString t |} in
  let w1 := (handleAddEntry toLocaleDateString t1 w).2 in
  let w2 := (handleAddEntry toLocaleDateString t2 w1).2 in
  stored_completed w1 = Return (entry t1 :: cs) /\
  stored_completed w2 = Return (entry t2 :: entry t1 :: cs) /\
  (forall gs, stored_given w = Return gs ->
     (handleAddEntry toLocaleDateString t1 w).1 = Return tt /\
     (handleAddEntry toLocaleDateString t2 w1).1 = Return tt).
Proof.
  intros Ht1 Ht2 Hc entry w1 w2.
  destruct (handleAddEntry_world w cs t1 Ht1 Hc) as (Hc1 & Hg1 & _ & Ho1).
  fold w1 in Hc1, Hg1. fold (entry t1) in Hc1.
  destruct (handleAddEntry_world w1 _ t2 Ht2 Hc1) as (Hc2 & _ & _ & Ho2).
  split; [exact Hc1|]. split; [exact Hc2|].
  intros gs Hg. rewrite Ho1, Ho2, Hg1. by rewrite Hg.
Qed.

(** C5. A click while [isResetMode] holds: when the user confirms, both
    persisted sequences are empty afterwards; when the user declines, the
    store, both sequences, both lists and both tab labels are as before; in
    both cases the controller has left reset mode. *)
Theorem reset_confirm_or_decline (w : World) (now : Z) (confirmed : bool) :
  isResetMode w = true ->
  exists w',
    handleButtonClick toLocaleDateString now confirmed w = (Return tt, w') /\
    isResetMode w' = false /\
    completeButton_resetClass (document w') = false /\
    if confirmed then
      stored_completed w' = Return [] /\ stored_given w' = Return [] /\
      tabCompleted_textContent (document w') = "Completed (0)" /\
      tabGiven_textContent (document w') = "Given (0)"
    else
      localStorage w' = localStorage w /\
      stored_completed w' = stored_completed w /\
      stored_given w' = stored_given w /\
      completionList (document w') = completionList (document w) /\
      givenList (document w') = givenList (document w) /\
      tabCompleted_textContent (document w') = tabCompleted_textContent (document w) /\
      tabGiven_textContent (document w') = tabGiven_textContent (document w).
Proof.
  intros Harmed. unfold handleButtonClick. step. rewrite Harmed.
  destruct confirmed.
  - destruct (handleReset_confirmed w)
      as (w' & Hrun & Hmode & Hclass & Hc & Hg & _ & _ & Htc & Htg).
    by exists w'.
  - eexists. split; [reflexivity|]. simpl.
    by rewrite !stored_completed_eq, !stored_given_eq.
Qed.

(** C7. When a slot is absent from the store, its load returns the empty
    sequence. *)
Theorem load_of_absent_slot (w : World) :
  (localStorage w !! COMPLETED_STORAGE_KEY = None ->
     loadCompletedEntries w = (Return [], w)) /\
  (localStorage w !! GIVEN_STORAGE_KEY = None ->
     loadGivenEntries w = (Return [], w)).
Proof.
  split; intros H.
  - by rewrite loadCompletedEntries_eq, H.
  - by rewrite loadGivenEntries_eq, H.
Qed.

(** C9. [renderList] run a second time shows the rows that the first run
    shows: the same texts, bound to the same entries, in the same order, and
    ends the same way.  When both slots load, these rows are the rows of the
    two persisted sequences. *)
Theorem renderList_idempotent (w : World) :
  let once := (renderList w).2 in
  let twice := (renderList once).2 in
  visible_completed twice = visible_completed once /\
  visible_given twice = visible_given once /\
  (renderList once).1 = (renderList w).1 /\
  forall cs gs,
    stored_completed w = Return cs /\ stored_given w = Return gs ->
    renderList w = (Return tt, once) /\
    visible_completed once = map (fun e => (content e, e)) cs /\
    visible_given once = map (fun e => (completedOn e, givenOn e)) gs.
Proof.
  intros once twice.
  destruct (renderList_visible w) as (Hls & Hvc & Hvg). fold once in Hls, Hvc, Hvg.
  destruct (renderList_visible once) as (_ & Hvc' & Hvg'). fold twice in Hvc', Hvg'.
  assert (Hsc : stored_completed once = stored_completed w)
    by by rewrite !stored_completed_eq, Hls.
  assert (Hsg : stored_given once = stored_given w)
    by by rewrite !stored_given_eq, Hls.
  split; [|split; [|split]].
  - rewrite Hvc', Hvc. unfold rendered_completed. by rewrite Hsc.
  - rewrite Hvg', Hvg. unfold rendered_given. by rewrite Hsc, Hsg.
  - rewrite !renderList_outcome. unfold outcome_of_loads. by rewrite Hsc, Hsg.
  - intros cs gs [Hc Hg]. split; [|split].
    + pose proof (renderList_outcome w) as Ho. unfold outcome_of_loads in Ho.
      rewrite Hc, Hg in Ho. subst once.
      destruct (renderList w) as [o w']. simpl in Ho. by rewrite Ho.
    + rewrite Hvc. unfold rendered_completed. by rewrite Hc.
    + rewrite Hvg. unfold rendered_given. by rewrite Hc, Hg.
Qed.

(** C10. [handleTransfer e] keeps every persisted Completed entry whose id
    differs from that of [e], in the order they had, and keeps the persisted
    Given entries unchanged and in order behind the one new entry. *)
Theorem transfer_frame (w : World) (cs : list CompletedEntry)
    (gs : list GivenEntry) (e : CompletedEntry) (listItem : nat) (now : Z) :
  stored_completed w = Return cs ->
  stored_given w = Return gs ->
  exists w' cs' gs',
    handleTransfer toLocaleDateString e listItem now w = (Return tt, w') /\
    stored_completed w' = Return cs' /\
    stored_given w' = Return gs' /\
    cs' = filter (fun x => id x ≠ id e) cs /\
    cs' `sublist_of` cs /\
    (forall x, x ∈ cs -> id x ≠ id e -> x ∈ cs') /\
    length gs' = S (length gs) /\
    tail gs' = gs.
Proof.
  intros Hc Hg.
  destruct (handleTransfer_returns w cs gs e listItem now Hc Hg)
    as (w' & Hrun & Hc' & Hg' & _).
  eexists w', _, _. split; [exact Hrun|]. split; [exact Hc'|]. split; [exact Hg'|].
  split; [reflexivity|]. split; [apply sublist_filter|]. split; [|done].
  intros x Hx Hne. by apply list_elem_of_filter.
Qed.

(** X13. From a state that is not in reset mode and in which no timer is
    pending, a press followed, less than 3000 ms later, by a release or by
    the pointer leaving the button never enters reset mode, however long one
    waits afterwards: the timer is gone, and the store, the lists, the labels
    and the button are as they were. *)
Theorem early_release_stays_normal (w : World) (ms ms' : Z) (release : event) :
  isResetMode w = false ->
  pending (timers w) = [] ->
  0 <= ms < 3000 ->
  0 <= ms' ->
  release = mouseup_completeButton \/ release = mouseleave_completeButton ->
  let w1 := dispatch toLocaleDateString w mousedown_completeButton in
  let w2 := dispatch toLocaleDateString w1 (elapse ms) in
  let w3 := dispatch toLocaleDateString w2 release in
  let w4 := dispatch toLocaleDateString w3 (elapse ms') in
  Forall (fun x => isResetMode x = false /\ observable x = observable w)
    [w1; w2; w3; w4] /\
  pending (timers w1) = [(next_handle (timers w), clock (timers w) + 3000)] /\
  pending (timers w3) = [] /\
  pending (timers w4) = [].
Proof.
  intros Hmode Hpending Hms Hms' Hrelease w1 w2 w3 w4.
  destruct w as [ls d mode pt [pend nh clk]]. simpl in Hmode, Hpending. subst mode pend.
  assert (H1 : w1 = {| localStorage := ls; document := d; isResetMode := false;
                       pressTimer := Some nh;
                       timers := {| pending := [(nh, clk + 3000)];
                                    next_handle := S nh; clock := clk |} |})
    by reflexivity.
  assert (H2 : w2 = {| localStorage := ls; document := d; isResetMode := false;
                       pressTimer := Some nh;
                       timers := {| pending := [(nh, clk + 3000)];
                                    next_handle := S nh; clock := clk + ms |} |}).
  { subst w2. rewrite H1. unfold dispatch, listener, run_timers.
    repeat step.
    rewrite filter_cons, filter_nil. simpl.
    rewrite decide_False by lia. unfold set_timers. simpl.
    rewrite filter_cons, filter_nil. simpl.
    rewrite decide_True by lia. reflexivity. }
  assert (H3 : w3 = {| localStorage := ls; document := d; isResetMode := false;
                       pressTimer := Some nh;
                       timers := {| pending := [];
                                    next_handle := S nh; clock := clk + ms |} |}).
  { subst w3. rewrite H2.
    destruct Hrelease as [-> | ->]; unfold dispatch, listener, handleButtonRelease;
      repeat step; unfold set_timers; simpl;
      rewrite filter_cons, filter_nil; simpl;
      by rewrite decide_False by (intros ?; done). }
  assert (H4 : w4 = {| localStorage := ls; document := d; isResetMode := false;
                       pressTimer := Some nh;
                       timers := {| pending := [];
                                    next_handle := S nh; clock := clk + ms + ms' |} |}).
  { subst w4. by rewrite H3. }
  rewrite H1, H2, H3, H4. repeat split; repeat constructor.
Qed.

(** C6, as the script has it.  When a slot holds non-empty text that
    [JSON.parse] rejects, the load of that slot throws the SyntaxError, and
    so does every gesture that reads it: the slot is not taken for an empty
    sequence. *)
Theorem load_of_corrupt_slot_throws (w : World) (text : string) :
  truthy text = true ->
  JSON_parse text = Throw SyntaxError ->
  (localStorage w !! COMPLETED_STORAGE_KEY = Some text ->
     loadCompletedEntries w = (Throw SyntaxError, w) /\
     (forall now, (handleAddEntry toLocaleDateString now w).1 = Throw SyntaxError) /\
     (forall e listItem now,
        (handleTransfer toLocaleDateString e listItem now w).1 = Throw SyntaxError) /\
     (renderList w).1 = Throw SyntaxError /\
     (updateTabCounts w).1 = Throw SyntaxError) /\
  (localStorage w !! GIVEN_STORAGE_KEY = Some text ->
     loadGivenEntries w = (Throw SyntaxError, w) /\
     forall cs, stored_completed w = Return cs ->
       (forall now, time_value now ->
          (handleAddEntry toLocaleDateString now w).1 = Throw SyntaxError) /\
       (forall e listItem now,
          (handleTransfer toLocaleDateString e listItem now w).1 = Throw SyntaxError) /\
       (renderList w).1 = Throw SyntaxError /\
       (updateTabCounts w).1 = Throw SyntaxError).
Proof.
  intros Htruthy Hparse. split; intros Hslot.
  - assert (Hc : stored_completed w = Throw SyntaxError).
    { rewrite stored_completed_eq, Hslot. unfold read_slot.
      by rewrite Htruthy, Hparse. }
    split; [|split; [|split; [|split]]].
    + rewrite loadCompletedEntries_eq, <- stored_completed_eq. by rewrite Hc.
    + intros now. by apply handleAddEntry_throws.
    + intros e listItem now. rewrite handleTransfer_outcome.
      unfold outcome_of_loads. by rewrite Hc.
    + rewrite renderList_outcome. unfold outcome_of_loads. by rewrite Hc.
    + rewrite updateTabCounts_outcome. unfold outcome_of_loads. by rewrite Hc.
  - assert (Hg : stored_given w = Throw SyntaxError).
    { rewrite stored_given_eq, Hslot. unfold read_slot.
      by rewrite Htruthy, Hparse. }
    split.
    + rewrite loadGivenEntries_eq, <- stored_given_eq. by rewrite Hg.
    + intros cs Hc. split; [|split; [|split]].
      * intros now Hnow.
        destruct (handleAddEntry_world w cs now Hnow Hc) as (_ & _ & _ & ->).
        by rewrite Hg.
      * intros e listItem now. rewrite handleTransfer_outcome.
        unfold outcome_of_loads. by rewrite Hc, Hg.
      * rewrite renderList_outcome. unfold outcome_of_loads. by rewrite Hc, Hg.
      * rewrite updateTabCounts_outcome. unfold outcome_of_loads. by rewrite Hc, Hg.
Qed.

(** *** Identity of the Completed entries *)

(** An add whose time value is not yet an id of the sequence keeps the ids
    distinct, and so does every transfer. *)
Lemma fresh_add_keeps_ids_distinct (w : World) (cs : list CompletedEntry) (now : Z) :
  time_value now ->
  stored_completed w = Return cs ->
  NoDup (map id cs) ->
  now ∉ map id cs ->
  exists cs', stored_completed (handleAddEntry toLocaleDateString now w).2 = Return cs' /\
              NoDup (map id cs').
Proof.
  intros Hnow Hc Hnodup Hfresh.
  destruct (handleAddEntry_world w cs now Hnow Hc) as (Hc' & _).
  eexists. split; [exact Hc'|]. simpl. by constructor.
Qed.

Lemma transfer_keeps_ids_distinct (w : World) (cs : list CompletedEntry)
    (gs : list GivenEntry) (e : CompletedEntry) (listItem : nat) (now : Z) :
  stored_completed w = Return cs ->
  stored_given w = Return gs ->
  NoDup (map id cs) ->
  exists cs', stored_completed (handleTransfer toLocaleDateString e listItem now w).2
              = Return cs' /\ NoDup (map id cs').
Proof.
  intros Hc Hg Hnodup.
  destruct (handleTransfer_returns w cs gs e listItem now Hc Hg)
    as (w' & -> & Hc' & _).
  eexists. split; [exact Hc'|]. simpl.
  clear -Hnodup. induction cs as [|x cs IH]; [done|].
  simpl in Hnodup. apply NoDup_cons in Hnodup as [Hx Hcs].
  rewrite filter_cons. destruct (decide (id x ≠ id e)); [|by apply IH].
  simpl. apply NoDup_cons. split; [|by apply IH].
  intros Hin. apply Hx.
  apply list_elem_of_fmap in Hin as (y & Hy & Hin).
  apply list_elem_of_filter in Hin as [_ Hin].
  apply list_elem_of_fmap. by exists y.
Qed.


(** ** More of the script *)

(** *** The two gestures, step by step *)

Lemma handleAddEntry_eq (w : World) (now : Z) :
  handleAddEntry toLocaleDateString now w =
  let newEntry := new_completed toLocaleDateString now in
  let w1 := set_document
              (set_completionList (cons (completed_item (next_node (document w)) newEntry)))
              (set_document bump_next_node w) in
  match stored_completed w with
  | Return cs =>
      updateTabCounts
        (set_localStorage
           (insert COMPLETED_STORAGE_KEY
              (JSON_stringify (JArr (map json_of_completed (newEntry :: cs))))) w1)
  | Throw e => (Throw e, w1)
  | Unmodelled => (Unmodelled, w1)
  end.
Proof.
  rewrite stored_completed_eq. unfold handleAddEntry. step. step.
  rewrite bind_eq, loadCompletedEntries_eq. simpl.
  destruct (read_slot completed_of_json _); [|reflexivity..].
  by step.
Qed.

Lemma handleTransfer_eq (w : World) (e : CompletedEntry) (listItem : nat) (now : Z) :
  handleTransfer toLocaleDateString e listItem now w =
  let g := new_given toLocaleDateString e now in
  let w1 := set_document
              (fun d => set_givenList (filter (fun r => g_node r ≠ listItem))
                          (set_completionList (filter (fun r => c_node r ≠ listItem)) d))
              w in
  match stored_completed w with
  | Return cs =>
      let w2 := set_localStorage
                  (insert COMPLETED_STORAGE_KEY
                     (JSON_stringify
                        (JArr (map json_of_completed
                                 (filter (fun x => id x ≠ id e) cs))))) w1 in
      let w3 := set_document
                  (set_givenList (cons (given_item (next_node (document w)) g)))
                  (set_document bump_next_node w2) in
      match stored_given w with
      | Return gs =>
          updateTabCounts
            (set_localStorage
               (insert GIVEN_STORAGE_KEY
                  (JSON_stringify (JArr (map json_of_given (g :: gs))))) w3)
      | Throw ex => (Throw ex, w3)
      | Unmodelled => (Unmodelled, w3)
      end
  | Throw ex => (Throw ex, w1)
  | Unmodelled => (Unmodelled, w1)
  end.
Proof.
  rewrite stored_completed_eq, stored_given_eq. unfold handleTransfer. step.
  rewrite bind_eq, loadCompletedEntries_eq. simpl.
  destruct (read_slot completed_of_json _); [|reflexivity..].
  do 3 step. rewrite bind_eq, loadGivenEntries_eq. simpl.
  rewrite lookup_insert_ne by apply keys_differ.
  destruct (read_slot given_of_json _); [|reflexivity..].
  by step.
Qed.

Lemma filter_absent_id (e : CompletedEntry) (cs : list CompletedEntry) :
  id e ∉ map id cs -> filter (fun x => id x ≠ id e) cs = cs.
Proof.
  induction cs as [|x cs IH]; [done|].
  simpl. intros [Hx Hcs]%not_elem_of_cons.
  rewrite filter_cons_True by done. f_equal. by apply IH.
Qed.

Lemma filtered_id_absent (e : CompletedEntry) (cs : list CompletedEntry) :
  id e ∉ map id (filter (fun x => id x ≠ id e) cs).
Proof.
  intros (x & Hid & [Hx _]%list_elem_of_filter)%list_elem_of_fmap. by apply Hx.
Qed.

(** *** Saving and loading *)

(** X1. A save followed by the load of the same slot gives the saved
    sequence back, whatever the slot held before; the other slot and the
    document are not touched, and of two saves to a slot the later one
    stands. *)
Theorem save_then_load (w : World) (cs cs0 : list CompletedEntry)
    (gs gs0 : list GivenEntry) :
  safe_ids cs ->
  let wc := (saveCompletedEntries cs w).2 in
  let wg := (saveGivenEntries gs w).2 in
  (loadCompletedEntries wc = (Return cs, wc) /\
   stored_given wc = stored_given w /\ document wc = document w /\
   (saveCompletedEntries cs (saveCompletedEntries cs0 w).2).2 = wc) /\
  (loadGivenEntries wg = (Return gs, wg) /\
   stored_completed wg = stored_completed w /\ document wg = document w /\
   (saveGivenEntries gs (saveGivenEntries gs0 w).2).2 = wg).
Proof.
  intros Hsafe wc wg. split.
  - split; [|split; [|split]].
    + rewrite loadCompletedEntries_eq. subst wc. simpl.
      by rewrite lookup_insert_eq, read_slot_saved_completed.
    + rewrite !stored_given_eq. subst wc. simpl.
      by rewrite lookup_insert_ne by apply keys_differ.
    + reflexivity.
    + subst wc. unfold saveCompletedEntries, localStorage_setItem, modify,
        set_localStorage. simpl. by rewrite insert_insert_eq.
  - split; [|split; [|split]].
    + rewrite loadGivenEntries_eq. subst wg. simpl.
      by rewrite lookup_insert_eq, read_slot_saved_given.
    + rewrite !stored_completed_eq. subst wg. simpl.
      by rewrite lookup_insert_ne by (symmetry; apply keys_differ).
    + reflexivity.
    + subst wg. unfold saveGivenEntries, localStorage_setItem, modify,
        set_localStorage. simpl. by rewrite insert_insert_eq.
Qed.

(** X2. A slot that holds the empty text loads as the empty sequence:
    [JSON.parse], which rejects the empty text, is not called on it. *)
Theorem load_of_empty_text (w : World) :
  JSON_parse "" = Throw SyntaxError /\
  (localStorage w !! COMPLETED_STORAGE_KEY = Some "" ->
     loadCompletedEntries w = (Return [], w)) /\
  (localStorage w !! GIVEN_STORAGE_KEY = Some "" ->
     loadGivenEntries w = (Return [], w)).
Proof.
  split; [reflexivity|]. split; intros H.
  - by rewrite loadCompletedEntries_eq, H.
  - by rewrite loadGivenEntries_eq, H.
Qed.

(** *** Gestures in a row *)

(** X3. An add followed by the transfer of the entry it made leaves the
    persisted Completed sequence as it was before the add, when no entry had
    the time value of the add as its id; the persisted Given sequence gains
    the entry derived from the added one. *)
Theorem add_then_transfer_restores (w : World) (cs : list CompletedEntry)
    (gs : list GivenEntry) (now later : Z) (listItem : nat) :
  time_value now ->
  stored_completed w = Return cs ->
  stored_given w = Return gs ->
  now ∉ map id cs ->
  let e := new_completed toLocaleDateString now in
  let w1 := (handleAddEntry toLocaleDateString now w).2 in
  let w2 := (handleTransfer toLocaleDateString e listItem later w1).2 in
  stored_completed w2 = Return cs /\
  stored_given w2 = Return (new_given toLocaleDateString e later :: gs).
Proof.
  intros Hnow Hc Hg Hfresh e w1 w2.
  destruct (handleAddEntry_world w cs now Hnow Hc) as (Hc1 & Hg1 & _).
  fold w1 in Hc1, Hg1. rewrite Hg in Hg1.
  destruct (handleTransfer_returns w1 _ gs e listItem later Hc1 Hg1)
    as (w' & Hrun & Hc2 & Hg2 & _).
  subst w2. rewrite Hrun. simpl. split; [|exact Hg2].
  rewrite Hc2. f_equal. rewrite filter_cons_False by (intros H; by apply H).
  by apply filter_absent_id.
Qed.

(** X4. A transfer run twice for the same entry is not absorbed: the second
    run leaves the persisted Completed sequence as the first left it and
    puts a second derived entry in front of the persisted Given sequence. *)
Theorem transfer_twice_duplicates (w : World) (cs : list CompletedEntry)
    (gs : list GivenEntry) (e : CompletedEntry) (n1 n2 : nat) (t1 t2 : Z) :
  stored_completed w = Return cs ->
  stored_given w = Return gs ->
  let w1 := (handleTransfer toLocaleDateString e n1 t1 w).2 in
  let w2 := (handleTransfer toLocaleDateString e n2 t2 w1).2 in
  stored_completed w1 = Return (filter (fun x => id x ≠ id e) cs) /\
  stored_completed w2 = stored_completed w1 /\
  stored_given w2
    = Return (new_given toLocaleDateString e t2
              :: new_given toLocaleDateString e t1 :: gs).
Proof.
  intros Hc Hg w1 w2.
  destruct (handleTransfer_returns w cs gs e n1 t1 Hc Hg)
    as (w1' & Hrun1 & Hc1 & Hg1 & _).
  assert (w1 = w1') as -> by (subst w1; by rewrite Hrun1).
  destruct (handleTransfer_returns w1' _ _ e n2 t2 Hc1 Hg1)
    as (w2' & Hrun2 & Hc2 & Hg2 & _).
  assert (w2 = w2') as -> by (subst w2; by rewrite Hrun2).
  split; [exact Hc1|]. split; [|exact Hg2].
  rewrite Hc2, Hc1. f_equal. apply filter_absent_id, filtered_id_absent.
Qed.

(** *** Gestures on a store that does not load *)

(** X5. When the Completed slot does not load, an add and a transfer end
    with the error of the load after they have changed the lists: the add
    has put its new row on top of the Completed list, the transfer has taken
    its row away, and the store is as it was. *)
Theorem unreadable_completed_shows_unsaved_change (w : World) (ex : exn)
    (now : Z) (e : CompletedEntry) (listItem : nat) :
  stored_completed w = Throw ex ->
  let wa := (handleAddEntry toLocaleDateString now w).2 in
  let wt := (handleTransfer toLocaleDateString e listItem now w).2 in
  ((handleAddEntry toLocaleDateString now w).1 = Throw ex /\
   localStorage wa = localStorage w /\
   completionList (document wa)
     = completed_item (next_node (document w)) (new_completed toLocaleDateString now)
       :: completionList (document w) /\
   givenList (document wa) = givenList (document w)) /\
  ((handleTransfer toLocaleDateString e listItem now w).1 = Throw ex /\
   localStorage wt = localStorage w /\
   completionList (document wt)
     = filter (fun r => c_node r ≠ listItem) (completionList (document w)) /\
   givenList (document wt)
     = filter (fun r => g_node r ≠ listItem) (givenList (document w))).
Proof.
  intros Hc wa wt. subst wa wt.
  rewrite handleAddEntry_eq, handleTransfer_eq, Hc. by simpl.
Qed.

(** X6. When the Completed slot loads and the Given slot does not, a
    transfer ends with the error of the Given load after the Completed side
    is done: the entry is gone from the persisted Completed sequence and the
    Given slot holds what it held, so the entry is in neither sequence. *)
Theorem unreadable_given_loses_transferred_entry (w : World)
    (cs : list CompletedEntry) (ex : exn) (e : CompletedEntry)
    (listItem : nat) (now : Z) :
  stored_completed w = Return cs ->
  stored_given w = Throw ex ->
  let w' := (handleTransfer toLocaleDateString e listItem now w).2 in
  (handleTransfer toLocaleDateString e listItem now w).1 = Throw ex /\
  stored_completed w' = Return (filter (fun x => id x ≠ id e) cs) /\
  (id e ∉ map id (filter (fun x => id x ≠ id e) cs)) /\
  localStorage w' !! GIVEN_STORAGE_KEY = localStorage w !! GIVEN_STORAGE_KEY /\
  stored_given w' = Throw ex /\
  givenList (document w')
    = given_item (next_node (document w)) (new_given toLocaleDateString e now)
      :: filter (fun r => g_node r ≠ listItem) (givenList (document w)).
Proof.
  intros Hc Hg w'. subst w'.
  pose proof (stored_completed_safe w cs Hc) as Hsafe.
  pose proof (read_slot_saved_completed (filter (fun x => id x ≠ id e) cs)
                (safe_ids_filter _ cs Hsafe)) as Hrc.
  rewrite handleTransfer_eq, Hc, Hg. simpl.
  rewrite stored_completed_eq, stored_given_eq. simpl.
  rewrite lookup_insert_eq, Hrc.
  rewrite lookup_insert_ne by apply keys_differ.
  rewrite <- stored_given_eq, Hg.
  split; [done|]. split; [done|]. split; [apply filtered_id_absent|done].
Qed.

(** X7. When the Completed slot loads and the Given slot does not, an add
    stores its entry and then ends with the error of the Given load, before
    the labels are written: the persisted Completed sequence has the new
    entry in front and the labels are those of before. *)
Theorem unreadable_given_leaves_labels_stale (w : World)
    (cs : list CompletedEntry) (ex : exn) (now : Z) :
  time_value now ->
  stored_completed w = Return cs ->
  stored_given w = Throw ex ->
  let w' := (handleAddEntry toLocaleDateString now w).2 in
  (handleAddEntry toLocaleDateString now w).1 = Throw ex /\
  stored_completed w' = Return (new_completed toLocaleDateString now :: cs) /\
  tabCompleted_textContent (document w') = tabCompleted_textContent (document w) /\
  tabGiven_textContent (document w') = tabGiven_textContent (document w).
Proof.
  intros Hnow Hc Hg w'.
  destruct (handleAddEntry_world w cs now Hnow Hc) as (Hc' & Hg' & _ & Ho).
  fold w' in Hc', Hg'. rewrite Hg in Ho, Hg'.
  split; [exact Ho|]. split; [exact Hc'|].
  subst w'. rewrite handleAddEntry_eq, Hc. simpl.
  rewrite updateTabCounts_eq, stored_given_eq. simpl.
  rewrite lookup_insert_ne by apply keys_differ.
  rewrite <- stored_given_eq, Hg.
  match goal with
  | |- context [stored_completed ?x] => destruct (stored_completed x)
  end; by split.
Qed.

(** *** The long press *)

Lemma forEach_enterResetMode (due : list (nat * Z)) (w : World) :
  forEach due (fun _ => enterResetMode) w
  = (Return tt,
     match due with
     | [] => w
     | _ :: _ => set_document (set_completeButton true "⟳") (set_isResetMode true w)
     end).
Proof.
  revert w. induction due as [|p due IH]; intros w; [reflexivity|].
  simpl forEach. step. rewrite IH.
  destruct due; [reflexivity|]. by destruct w as [? [] ? ? ?].
Qed.

Lemma run_timers_eq (ms : Z) (w : World) :
  run_timers ms w
  = (Return tt,
     let now := clock (timers w) + ms in
     let w1 := set_timers (fun t =>
                 {| pending := filter (fun p => ¬ p.2 <= now) (pending t);
                    next_handle := next_handle t; clock := now |}) w in
     match filter (fun p => p.2 <= now) (pending (timers w)) with
     | [] => w1
     | _ :: _ => set_document (set_completeButton true "⟳") (set_isResetMode true w1)
     end).
Proof.
  unfold run_timers. repeat step. rewrite forEach_enterResetMode.
  destruct w as [? ? ? ? []]. simpl. by destruct (filter _ _).
Qed.

(** X8. From the Normal state with no timer pending, a press held for
    3000 ms or more arms the controller: the flag is set, the button carries
    the reset class and the reset glyph, no timer is left, and the store, the
    rows of the two lists and the two labels are as they were; the release
    that follows changes nothing of this. *)
Theorem long_press_arms (w : World) (ms : Z) (release : event) :
  isResetMode w = false ->
  pending (timers w) = [] ->
  3000 <= ms ->
  release = mouseup_completeButton \/ release = mouseleave_completeButton ->
  let w1 := dispatch toLocaleDateString w mousedown_completeButton in
  let w2 := dispatch toLocaleDateString w1 (elapse ms) in
  let w3 := dispatch toLocaleDateString w2 release in
  isResetMode w2 = true /\
  completeButton_resetClass (document w2) = true /\
  completeButton_textContent (document w2) = "⟳" /\
  pending (timers w2) = [] /\
  localStorage w2 = localStorage w /\
  completionList (document w2) = completionList (document w) /\
  givenList (document w2) = givenList (document w) /\
  tabCompleted_textContent (document w2) = tabCompleted_textContent (document w) /\
  tabGiven_textContent (document w2) = tabGiven_textContent (document w) /\
  observable w3 = observable w2 /\
  pending (timers w3) = [].
Proof.
  intros Hmode Hpending Hms Hrelease w1 w2 w3.
  destruct w as [ls d mode pt [pend nh clk]]. simpl in Hmode, Hpending. subst mode pend.
  assert (H1 : w1 = {| localStorage := ls; document := d; isResetMode := false;
                       pressTimer := Some nh;
                       timers := {| pending := [(nh, clk + 3000)];
                                    next_handle := S nh; clock := clk |} |})
    by reflexivity.
  assert (H2 : w2 = {| localStorage := ls;
                       document := set_completeButton true "⟳" d;
                       isResetMode := true; pressTimer := Some nh;
                       timers := {| pending := []; next_handle := S nh;
                                    clock := clk + ms |} |}).
  { subst w2. rewrite H1. unfold dispatch, listener. rewrite run_timers_eq.
    simpl. rewrite !filter_cons, !filter_nil. simpl.
    rewrite decide_True by lia. unfold set_timers. simpl.
    rewrite !filter_cons, !filter_nil. simpl.
    rewrite decide_False by (intros H; apply H; lia).
    reflexivity. }
  assert (H3 : w3 = w2).
  { subst w3. rewrite H2.
    destruct Hrelease as [-> | ->]; reflexivity. }
  rewrite H3, H2. by destruct d.
Qed.

(** X9. A second press before any release starts a second timer and keeps
    only its handle: the release clears the second timer, the first one
    stays pending, and 3000 ms after the first press the controller is armed
    although the button was released before. *)
Theorem second_press_leaves_first_timer (w : World) (d1 d2 d3 : Z) (release : event) :
  isResetMode w = false ->
  pending (timers w) = [] ->
  0 <= d1 -> 0 <= d2 -> d1 + d2 < 3000 -> 3000 <= d1 + d2 + d3 ->
  release = mouseup_completeButton \/ release = mouseleave_completeButton ->
  let w1 := run toLocaleDateString
              [mousedown_completeButton; elapse d1;
               mousedown_completeButton; elapse d2; release] w in
  let w2 := dispatch toLocaleDateString w1 (elapse d3) in
  isResetMode w1 = false /\
  pending (timers w1) = [(next_handle (timers w), clock (timers w) + 3000)] /\
  isResetMode w2 = true /\
  completeButton_textContent (document w2) = "⟳".
Proof.
  intros Hmode Hpending Hd1 Hd2 Hlt Hge Hrelease w1 w2.
  destruct w as [ls d mode pt [pend nh clk]]. simpl in Hmode, Hpending. subst mode pend.
  set (page := fun h p n c =>
         {| localStorage := ls; document := d; isResetMode := false;
            pressTimer := Some h;
            timers := {| pending := p; next_handle := n; clock := c |} |}).
  set (w0 := {| localStorage := ls; document := d; isResetMode := false;
                pressTimer := pt;
                timers := {| pending := []; next_handle := nh; clock := clk |} |}) in *.
  assert (Ha : dispatch toLocaleDateString w0 mousedown_completeButton
               = page nh [(nh, clk + 3000)] (S nh) clk) by reflexivity.
  assert (Hb : dispatch toLocaleDateString (page nh [(nh, clk + 3000)] (S nh) clk)
                 (elapse d1)
               = page nh [(nh, clk + 3000)] (S nh) (clk + d1)).
  { unfold dispatch, listener. rewrite run_timers_eq. unfold page. simpl.
    rewrite !filter_cons, !filter_nil. simpl.
    rewrite decide_False by lia. unfold set_timers. simpl.
    rewrite !filter_cons, !filter_nil. simpl.
    by rewrite decide_True by lia. }
  assert (Hc : dispatch toLocaleDateString
                 (page nh [(nh, clk + 3000)] (S nh) (clk + d1))
                 mousedown_completeButton
               = page (S nh) [(nh, clk + 3000); (S nh, clk + d1 + 3000)]
                   (S (S nh)) (clk + d1)) by reflexivity.
  assert (Hd : dispatch toLocaleDateString
                 (page (S nh) [(nh, clk + 3000); (S nh, clk + d1 + 3000)]
                    (S (S nh)) (clk + d1)) (elapse d2)
               = page (S nh) [(nh, clk + 3000); (S nh, clk + d1 + 3000)]
                   (S (S nh)) (clk + d1 + d2)).
  { unfold dispatch, listener. rewrite run_timers_eq. unfold page. simpl.
    rewrite !filter_cons, !filter_nil. simpl.
    rewrite !decide_False by lia. unfold set_timers. simpl.
    rewrite !filter_cons, !filter_nil. simpl.
    by rewrite !decide_True by lia. }
  assert (He : dispatch toLocaleDateString
                 (page (S nh) [(nh, clk + 3000); (S nh, clk + d1 + 3000)]
                    (S (S nh)) (clk + d1 + d2)) release
               = page (S nh) [(nh, clk + 3000)] (S (S nh)) (clk + d1 + d2)).
  { destruct Hrelease as [-> | ->]; unfold dispatch, listener, handleButtonRelease;
      repeat step; unfold page, set_timers; simpl;
      rewrite !filter_cons, !filter_nil; simpl;
      rewrite decide_True by lia; by rewrite decide_False by (intros H; by apply H). }
  assert (H1 : w1 = page (S nh) [(nh, clk + 3000)] (S (S nh)) (clk + d1 + d2)).
  { subst w1. unfold run. simpl foldl. by rewrite Ha, Hb, Hc, Hd, He. }
  assert (H2 : w2 = {| localStorage := ls;
                       document := set_completeButton true "⟳" d;
                       isResetMode := true; pressTimer := Some (S nh);
                       timers := {| pending := []; next_handle := S (S nh);
                                    clock := clk + d1 + d2 + d3 |} |}).
  { subst w2. rewrite H1. unfold dispatch, listener. rewrite run_timers_eq.
    unfold page. simpl. rewrite !filter_cons, !filter_nil. simpl.
    rewrite decide_True by lia. unfold set_timers. simpl.
    rewrite !filter_cons, !filter_nil. simpl.
    rewrite decide_False by (intros H; apply H; lia).
    reflexivity. }
  rewrite H2, H1. by destruct d.
Qed.

(** C8 on the script.  [handleButtonRelease] clears the one timer whose
    handle [pressTimer] holds.  After two presses with no release between
    them and a release, the page looks as before, a further release changes
    nothing, and the timer of the first press is still pending.  A press
    that is then released before 3000 ms have passed leaves the page in the
    Normal state at the release, yet the controller is armed as soon as
    3000 ms have passed since that press. *)
Theorem early_release_with_stale_timer_arms (w : World) (ms ms' : Z) (release : event) :
  isResetMode w = false ->
  pending (timers w) = [] ->
  0 <= ms < 3000 ->
  3000 <= ms + ms' ->
  release = mouseup_completeButton \/ release = mouseleave_completeButton ->
  let s := run toLocaleDateString
             [mousedown_completeButton; mousedown_completeButton;
              mouseup_completeButton] w in
  let w1 := dispatch toLocaleDateString s mousedown_completeButton in
  let w2 := dispatch toLocaleDateString w1 (elapse ms) in
  let w3 := dispatch toLocaleDateString w2 release in
  let w4 := dispatch toLocaleDateString w3 (elapse ms') in
  (isResetMode s = false /\ observable s = observable w) /\
  dispatch toLocaleDateString s release = s /\
  pending (timers s) = [(next_handle (timers w), clock (timers w) + 3000)] /\
  Forall (fun x => isResetMode x = false /\ observable x = observable w)
    [w1; w2; w3] /\
  pending (timers w3) = pending (timers s) /\
  isResetMode w4 = true /\
  completeButton_resetClass (document w4) = true /\
  completeButton_textContent (document w4) = "⟳" /\
  observable w4 ≠ observable w.
Proof.
  intros Hmode Hpending Hms Hms' Hrelease s w1 w2 w3 w4.
  destruct w as [ls d mode pt [pend nh clk]]. simpl in Hmode, Hpending. subst mode pend.
  set (page := fun h p n c =>
         {| localStorage := ls; document := d; isResetMode := false;
            pressTimer := Some h;
            timers := {| pending := p; next_handle := n; clock := c |} |}).
  assert (Hs : s = page (S nh) [(nh, clk + 3000)] (S (S nh)) clk).
  { subst s. unfold run. simpl foldl.
    unfold dispatch, listener, handleButtonRelease. repeat step.
    unfold page, set_timers. simpl.
    rewrite !filter_cons, !filter_nil. simpl.
    rewrite decide_True by lia. by rewrite decide_False by (intros H; by apply H). }
  assert (Hagain : dispatch toLocaleDateString s release = s).
  { rewrite Hs.
    destruct Hrelease as [-> | ->]; unfold dispatch, listener, handleButtonRelease;
      repeat step; unfold page, set_timers; simpl;
      rewrite !filter_cons, !filter_nil; simpl;
      by rewrite decide_True by lia. }
  assert (H1 : w1 = page (S (S nh)) [(nh, clk + 3000); (S (S nh), clk + 3000)]
                      (S (S (S nh))) clk)
    by (subst w1; by rewrite Hs).
  assert (H2 : w2 = page (S (S nh)) [(nh, clk + 3000); (S (S nh), clk + 3000)]
                      (S (S (S nh))) (clk + ms)).
  { subst w2. rewrite H1. unfold dispatch, listener. rewrite run_timers_eq.
    unfold page. simpl. rewrite !filter_cons, !filter_nil. simpl.
    rewrite !decide_False by lia. unfold set_timers. simpl.
    rewrite !filter_cons, !filter_nil. simpl.
    by rewrite !decide_True by lia. }
  assert (H3 : w3 = page (S (S nh)) [(nh, clk + 3000)] (S (S (S nh))) (clk + ms)).
  { subst w3. rewrite H2.
    destruct Hrelease as [-> | ->]; unfold dispatch, listener, handleButtonRelease;
      repeat step; unfold page, set_timers; simpl;
      rewrite !filter_cons, !filter_nil; simpl;
      rewrite decide_True by lia; by rewrite decide_False by (intros H; by apply H). }
  assert (H4 : w4 = {| localStorage := ls;
                       document := set_completeButton true "⟳" d;
                       isResetMode := true; pressTimer := Some (S (S nh));
                       timers := {| pending := []; next_handle := S (S (S nh));
                                    clock := clk + ms + ms' |} |}).
  { subst w4. rewrite H3. unfold dispatch, listener. rewrite run_timers_eq.
    unfold page. simpl. rewrite !filter_cons, !filter_nil. simpl.
    rewrite decide_True by lia. unfold set_timers. simpl.
    rewrite !filter_cons, !filter_nil. simpl.
    rewrite decide_False by (intros H; apply H; lia).
    reflexivity. }
  split; [by rewrite Hs|]. split; [exact Hagain|]. split; [by rewrite Hs|].
  split; [rewrite H1, H2, H3; repeat constructor|].
  split; [by rewrite H3, Hs|].
  rewrite H4. split; [reflexivity|]. split; [by destruct d|]. split; [by destruct d|].
  intros Hobs. apply (f_equal snd) in Hobs. discriminate Hobs.
Qed.

(** *** What the other listeners leave alone *)

(** X10. A tab click, a press, a release and the passing of time return
    without an error and change neither the store nor the rows of the two
    lists nor the labels. *)
Theorem other_listeners_keep_data (w : World) (t : tab) (ms : Z) :
  Forall (fun listener : M unit =>
            (listener w).1 = Return tt /\ data (listener w).2 = data w)
    [handleTabClick t; handleButtonPress; handleButtonRelease; run_timers ms].
Proof.
  repeat apply Forall_cons_2; [| | | |apply Forall_nil_2].
  - by destruct t.
  - done.
  - unfold handleButtonRelease. step. by destruct (pressTimer w).
  - rewrite run_timers_eq. simpl. by destruct (filter _ _).
Qed.

(** *** The page against the store *)

Lemma filter_on_members {A} (P Q : A -> Prop) `{forall x, Decision (P x)}
    `{forall x, Decision (Q x)} (l : list A) :
  (forall x, x ∈ l -> (P x <-> Q x)) -> filter P l = filter Q l.
Proof.
  induction l as [|a l IH]; intros Hl; [done|].
  rewrite !filter_cons.
  assert (Ha : P a <-> Q a) by (apply Hl; left).
  assert (Htl : filter P l = filter Q l) by (apply IH; intros x Hx; apply Hl; by right).
  destruct (decide (P a)), (decide (Q a)); rewrite ?Htl; tauto.
Qed.

Lemma filter_keeps_all {A} (P : A -> Prop) `{forall x, Decision (P x)} (l : list A) :
  (forall x, x ∈ l -> P x) -> filter P l = l.
Proof.
  induction l as [|a l IH]; intros Hl; [done|].
  rewrite filter_cons_True by (apply Hl; left).
  f_equal. apply IH. intros x Hx. apply Hl. by right.
Qed.

Lemma filter_of_map {A B} (g : A -> B) (P : B -> Prop) `{forall y, Decision (P y)}
    (l : list A) :
  filter P (map g l) = map g (filter (fun x => P (g x)) l).
Proof.
  induction l as [|a l IH]; [done|].
  simpl map. rewrite !filter_cons. destruct (decide (P (g a))); simpl; by rewrite IH.
Qed.

Lemma NoDup_map_members {A B} (g : A -> B) (l : list A) (x y : A) :
  NoDup (map g l) -> x ∈ l -> y ∈ l -> g x = g y -> x = y.
Proof.
  induction l as [|a l IH]; intros Hnd Hx Hy Hg; [by apply elem_of_nil in Hx|].
  simpl in Hnd. apply NoDup_cons in Hnd as [Ha Hl].
  apply elem_of_cons in Hx as [->|Hx]; apply elem_of_cons in Hy as [->|Hy].
  - done.
  - exfalso. apply Ha. rewrite Hg. apply list_elem_of_fmap. by exists y.
  - exfalso. apply Ha. rewrite <- Hg. apply list_elem_of_fmap. by exists x.
  - by apply IH.
Qed.

Lemma NoDup_map_filter {A B} (g : A -> B) (P : A -> Prop) `{forall x, Decision (P x)}
    (l : list A) :
  NoDup (map g l) -> NoDup (map g (filter P l)).
Proof.
  induction l as [|a l IH]; [done|].
  simpl. intros [Ha Hl]%NoDup_cons. rewrite filter_cons.
  destruct (decide (P a)); [|by apply IH].
  simpl. apply NoDup_cons. split; [|by apply IH].
  intros (y & Hy & [_ Hin]%list_elem_of_filter)%list_elem_of_fmap.
  apply Ha. apply list_elem_of_fmap. by exists y.
Qed.

(** Rows that show a sequence carry its entries, with their contents as
    texts. *)
Lemma rows_show_entries (rows : list CompletedItem) (cs : list CompletedEntry) :
  map (fun r => (c_text r, c_entryObject r)) rows = map (fun e => (content e, e)) cs ->
  cs = map c_entryObject rows /\
  Forall (fun r => c_text r = content (c_entryObject r)) rows.
Proof.
  revert cs. induction rows as [|r rows IH]; intros [|c cs] H; try done.
  simpl in H. injection H as Htext Hentry Htl. subst c.
  destruct (IH cs Htl) as [-> Hrows]. split; [done|]. by constructor.
Qed.

Lemma entries_shown_by_rows (rows : list CompletedItem) :
  Forall (fun r => c_text r = content (c_entryObject r)) rows ->
  map (fun r => (c_text r, c_entryObject r)) rows
  = map (fun e => (content e, e)) (map c_entryObject rows).
Proof.
  induction 1 as [|r rows Hr _ IH]; [done|]. simpl. by rewrite Hr, IH.
Qed.

(** Taking the row of a node away from the list is taking the entry of that
    row away from the sequence, when nodes and ids are pairwise distinct. *)
Lemma rows_without_node (rows : list CompletedItem) (cs : list CompletedEntry)
    (r : CompletedItem) :
  map (fun r => (c_text r, c_entryObject r)) rows = map (fun e => (content e, e)) cs ->
  NoDup (map c_node rows) ->
  NoDup (map id cs) ->
  r ∈ rows ->
  map (fun r => (c_text r, c_entryObject r))
    (filter (fun r' => c_node r' ≠ c_node r) rows)
  = map (fun e => (content e, e))
      (filter (fun x => id x ≠ id (c_entryObject r)) cs).
Proof.
  intros [-> Htext]%rows_show_entries Hnodes Hids Hr.
  rewrite filter_of_map.
  rewrite (filter_on_members
             (fun x => id (c_entryObject x) ≠ id (c_entryObject r))
             (fun r' => c_node r' ≠ c_node r)).
  - apply entries_shown_by_rows.
    rewrite Forall_forall in Htext. apply Forall_forall.
    intros x [_ Hx]%list_elem_of_filter. by apply Htext.
  - intros x Hx. split; intros Hne Heq; apply Hne.
    + by rewrite (NoDup_map_members c_node rows x r Hnodes Hx Hr Heq).
    + rewrite map_map in Hids.
      by rewrite (NoDup_map_members _ rows x r Hids Hx Hr Heq).
Qed.

Lemma item_nodes_facts (d : Document) :
  NoDup (item_nodes d) ->
  NoDup (map c_node (completionList d)) /\
  NoDup (map g_node (givenList d)) /\
  forall r, r ∈ completionList d -> c_node r ∉ map g_node (givenList d).
Proof.
  unfold item_nodes. intros (Hc & Hdisj & Hg)%NoDup_app.
  split; [done|]. split; [done|].
  intros r Hr. apply Hdisj. apply list_elem_of_fmap. by exists r.
Qed.

Lemma consistent_of_data (w w' : World) (cs : list CompletedEntry) (gs : list GivenEntry) :
  data w' = data w -> button_shows_mode w' ->
  consistent w cs gs -> consistent w' cs gs.
Proof.
  unfold data. intros [= Hls Hcl Hgl Htc Htg Hnn] Hbutton [].
  constructor; try done.
  - by rewrite stored_completed_eq, Hls, <- stored_completed_eq.
  - by rewrite stored_given_eq, Hls, <- stored_given_eq.
  - unfold visible_completed in *. by rewrite Hcl.
  - unfold visible_given in *. by rewrite Hgl.
  - by rewrite Htc, Htg.
  - unfold item_nodes in *. by rewrite Hcl, Hgl.
  - unfold item_nodes in *. by rewrite Hcl, Hgl, Hnn.
Qed.

Lemma add_keeps_consistent (w : World) (cs : list CompletedEntry)
    (gs : list GivenEntry) (now : Z) :
  consistent w cs gs ->
  time_value now ->
  now ∉ map id cs ->
  handleAddEntry toLocaleDateString now w
    = (Return tt, (handleAddEntry toLocaleDateString now w).2) /\
  consistent (handleAddEntry toLocaleDateString now w).2
    (new_completed toLocaleDateString now :: cs) gs.
Proof.
  intros [Hc Hg Hvc Hvg Hlabels Hids Hnodes Hbelow Hbutton] Hnow Hfresh.
  pose proof (stored_completed_safe w cs Hc) as Hsafe.
  assert (Hsafe' : safe_ids (new_completed toLocaleDateString now :: cs)).
  { constructor; [by apply time_value_safe|done]. }
  pose proof (read_slot_saved_completed _ Hsafe') as Hrc. rewrite map_cons in Hrc.
  rewrite handleAddEntry_eq, Hc. simpl.
  rewrite updateTabCounts_eq, stored_completed_eq, stored_given_eq. simpl.
  rewrite lookup_insert_eq, Hrc.
  rewrite lookup_insert_ne by apply keys_differ.
  rewrite <- stored_given_eq, Hg. simpl. split; [reflexivity|].
  constructor.
  - rewrite stored_completed_eq. simpl. by rewrite lookup_insert_eq.
  - rewrite stored_given_eq. simpl.
    rewrite lookup_insert_ne by apply keys_differ. by rewrite <- stored_given_eq.
  - unfold visible_completed in *. simpl. by rewrite Hvc.
  - unfold visible_given in *. simpl. by rewrite Hvg.
  - reflexivity.
  - simpl. by constructor.
  - unfold item_nodes in *. simpl. apply NoDup_cons. split; [|done].
    intros Hin. rewrite Forall_forall in Hbelow. apply Hbelow in Hin. lia.
  - unfold item_nodes in *. simpl. constructor; [lia|].
    eapply Forall_impl; [exact Hbelow|]. simpl. lia.
  - exact Hbutton.
Qed.

Lemma transfer_keeps_consistent (w : World) (cs : list CompletedEntry)
    (gs : list GivenEntry) (r : CompletedItem) (now : Z) :
  consistent w cs gs ->
  r ∈ completionList (document w) ->
  let e := c_entryObject r in
  let w' := (handleTransfer toLocaleDateString e (c_node r) now w).2 in
  handleTransfer toLocaleDateString e (c_node r) now w = (Return tt, w') /\
  consistent w' (filter (fun x => id x ≠ id e) cs)
    (new_given toLocaleDateString e now :: gs).
Proof.
  intros [Hc Hg Hvc Hvg Hlabels Hids Hnodes Hbelow Hbutton] Hr e w'. subst w'.
  pose proof (stored_completed_safe w cs Hc) as Hsafe.
  pose proof (read_slot_saved_completed (filter (fun x => id x ≠ id e) cs)
                (safe_ids_filter _ cs Hsafe)) as Hrc.
  pose proof (read_slot_saved_given (new_given toLocaleDateString e now :: gs)) as Hrg.
  rewrite map_cons in Hrg.
  destruct (item_nodes_facts _ Hnodes) as (Hcn & Hgn & Hdisj).
  assert (Hgiven : filter (fun x => g_node x ≠ c_node r) (givenList (document w))
                   = givenList (document w)).
  { apply filter_keeps_all. intros x Hx Heq. apply (Hdisj r Hr).
    rewrite <- Heq. apply list_elem_of_fmap. by exists x. }
  rewrite handleTransfer_eq, Hc, Hg. simpl.
  rewrite updateTabCounts_eq, stored_completed_eq, stored_given_eq. simpl.
  rewrite lookup_insert_eq.
  rewrite lookup_insert_ne by (symmetry; apply keys_differ).
  rewrite lookup_insert_eq, Hrc, Hrg. simpl. split; [reflexivity|].
  constructor.
  - rewrite stored_completed_eq. simpl.
    rewrite lookup_insert_ne by (symmetry; apply keys_differ).
    by rewrite lookup_insert_eq.
  - rewrite stored_given_eq. simpl. by rewrite lookup_insert_eq.
  - unfold visible_completed in *. simpl. by apply rows_without_node.
  - unfold visible_given in *. simpl. by rewrite Hgiven, Hvg.
  - reflexivity.
  - by apply NoDup_map_filter.
  - unfold item_nodes in *. simpl. rewrite Hgiven.
    apply NoDup_app. split; [by apply NoDup_map_filter|]. split.
    + intros n (x & -> & [_ Hx]%list_elem_of_filter)%list_elem_of_fmap
        [Hn|Hn]%elem_of_cons.
      * rewrite Forall_forall in Hbelow.
        assert (c_node x ∈ map c_node (completionList (document w))
                          ++ map g_node (givenList (document w))) as Hin%Hbelow; [|lia].
        apply elem_of_app. left. apply list_elem_of_fmap. by exists x.
      * by apply (Hdisj x Hx).
    + apply NoDup_cons. split; [|done].
      intros Hin. rewrite Forall_forall in Hbelow.
      assert (next_node (document w) ∈ map c_node (completionList (document w))
                ++ map g_node (givenList (document w))) as Hin'%Hbelow; [|lia].
      apply elem_of_app. by right.
  - unfold item_nodes in *. simpl. rewrite Hgiven.
    rewrite Forall_forall in Hbelow. apply Forall_forall.
    intros n [Hn|Hn]%elem_of_app.
    + apply list_elem_of_fmap in Hn as (x & -> & [_ Hx]%list_elem_of_filter).
      assert (c_node x ∈ map c_node (completionList (document w))
                        ++ map g_node (givenList (document w))) as Hin%Hbelow; [|lia].
      apply elem_of_app. left. apply list_elem_of_fmap. by exists x.
    + apply elem_of_cons in Hn as [->|Hn]; [lia|].
      assert (n ∈ map c_node (completionList (document w))
                ++ map g_node (givenList (document w))) as Hin%Hbelow; [|lia].
      apply elem_of_app. by right.
  - exact Hbutton.
Qed.

Lemma reset_keeps_consistent (w : World) (cs : list CompletedEntry)
    (gs : list GivenEntry) (confirmed : bool) :
  consistent w cs gs ->
  let w' := (handleReset confirmed w).2 in
  handleReset confirmed w = (Return tt, w') /\
  isResetMode w' = false /\
  consistent w' (if confirmed then [] else cs) (if confirmed then [] else gs).
Proof.
  intros Hw w'. subst w'. destruct confirmed.
  - pose proof (read_slot_saved_completed [] (List.Forall_nil _)) as Hrc.
    pose proof (read_slot_saved_given []) as Hrg. simpl in Hrc, Hrg.
    unfold handleReset. rewrite bind_eq. step.
    step. rewrite bind_eq.
    rewrite renderList_eq, stored_completed_eq, stored_given_eq. simpl.
    rewrite lookup_insert_eq.
    rewrite lookup_insert_ne by (symmetry; apply keys_differ).
    rewrite lookup_insert_eq, Hrc, Hrg. simpl.
    rewrite updateTabCounts_eq, stored_completed_eq, stored_given_eq. simpl.
    rewrite lookup_insert_eq.
    rewrite lookup_insert_ne by (symmetry; apply keys_differ).
    rewrite lookup_insert_eq, Hrc, Hrg. simpl.
    split; [reflexivity|]. split; [reflexivity|].
    constructor; try done.
    + rewrite stored_completed_eq. simpl.
      rewrite lookup_insert_ne by (symmetry; apply keys_differ).
      by rewrite lookup_insert_eq.
    + rewrite stored_given_eq. simpl. by rewrite lookup_insert_eq.
    + constructor.
    + constructor.
  - split; [reflexivity|]. split; [reflexivity|].
    apply (consistent_of_data w); done.
Qed.

Lemma elapse_keeps_consistent (w : World) (cs : list CompletedEntry)
    (gs : list GivenEntry) (ms : Z) :
  consistent w cs gs -> consistent (run_timers ms w).2 cs gs.
Proof.
  intros Hw. apply (consistent_of_data w); [| |exact Hw].
  - rewrite run_timers_eq. simpl. by destruct (filter _ _).
  - rewrite run_timers_eq. simpl.
    destruct (filter _ _); [|done]. by destruct Hw.
Qed.

(** One event on a consistent page leaves a consistent page. *)
Lemma dispatch_keeps_consistent (w : World) (cs : list CompletedEntry)
    (gs : list GivenEntry) (e : event) :
  consistent w cs gs ->
  fresh_click w e ->
  exists cs' gs', consistent (dispatch toLocaleDateString w e) cs' gs'.
Proof.
  intros Hw Hfresh. unfold dispatch, listener.
  destruct e as [now confirmed|listItem now|t| | | |ms].
  - unfold handleButtonClick. step. destruct (isResetMode w) eqn:Hmode.
    + destruct (reset_keeps_consistent w cs gs confirmed Hw) as (_ & _ & H). eauto.
    + destruct (Hfresh Hmode) as [Hnow Hid].
      destruct (add_keeps_consistent w cs gs now Hw Hnow) as [_ H]; [|eauto].
      apply Hid. by destruct Hw.
  - step.
    destruct (filter (fun r => c_node r = listItem) (completionList (document w)))
      as [|r rows] eqn:Hrows; [eauto|].
    assert (Hr : r ∈ filter (fun r => c_node r = listItem) (completionList (document w)))
      by (rewrite Hrows; left).
    apply list_elem_of_filter in Hr as [<- Hr].
    destruct (transfer_keeps_consistent w cs gs r now Hw Hr) as [_ H]. eauto.
  - exists cs, gs. apply (consistent_of_data w); [by destruct t| |exact Hw].
    destruct Hw. by destruct t.
  - exists cs, gs. apply (consistent_of_data w); [done| |exact Hw]. by destruct Hw.
  - exists cs, gs. apply (consistent_of_data w); [| |exact Hw].
    + unfold handleButtonRelease. step. by destruct (pressTimer w).
    + unfold handleButtonRelease. step. destruct Hw. by destruct (pressTimer w).
  - exists cs, gs. apply (consistent_of_data w); [| |exact Hw].
    + unfold handleButtonRelease. step. by destruct (pressTimer w).
    + unfold handleButtonRelease. step. destruct Hw. by destruct (pressTimer w).
  - exists cs, gs. by apply elapse_keeps_consistent.
Qed.

(** X12. On a page that shows its store, every run of events whose adds
    come with time values that no stored entry has as its id ends on a page
    that shows its store: both slots load, the rows of the two lists are the
    rows of the two persisted sequences, the labels carry their lengths, the
    ids are pairwise distinct and the button shows the mode. *)
Theorem run_keeps_consistent (events : list event) (w : World)
    (cs : list CompletedEntry) (gs : list GivenEntry) :
  consistent w cs gs ->
  fresh_clicks toLocaleDateString w events ->
  exists cs' gs', consistent (run toLocaleDateString events w) cs' gs'.
Proof.
  revert w cs gs. induction events as [|e events IH]; intros w cs gs Hw Hfresh.
  - by exists cs, gs.
  - destruct Hfresh as [He Hrest].
    destruct (dispatch_keeps_consistent w cs gs e Hw He) as (cs1 & gs1 & H1).
    exact (IH _ cs1 gs1 H1 Hrest).
Qed.

(** *** The first rendering *)

Lemma with_completed_rows_nodes (cs : list CompletedEntry) (d : Document) :
  let d' := with_completed_rows cs d in
  map c_node (completionList d')
    = map c_node (completionList d) ++ seq (next_node d) (length cs) /\
  next_node d' = (next_node d + length cs)%nat /\
  givenList d' = givenList d /\
  completeButton_resetClass d' = completeButton_resetClass d /\
  completeButton_textContent d' = completeButton_textContent d.
Proof.
  revert d. induction cs as [|e cs IH]; intros d; simpl.
  - rewrite app_nil_r. repeat split. lia.
  - destruct (IH (set_completionList
        (fun rows => rows ++ [{| c_node := next_node d; c_text := content e;
                                 c_entryObject := e |}])
        (bump_next_node d))) as (-> & -> & -> & -> & ->).
    simpl. rewrite map_app, <- app_assoc. simpl. repeat split. lia.
Qed.

Lemma with_given_rows_nodes (gs : list GivenEntry) (d : Document) :
  let d' := with_given_rows gs d in
  map g_node (givenList d')
    = map g_node (givenList d) ++ seq (next_node d) (length gs) /\
  next_node d' = (next_node d + length gs)%nat /\
  completionList d' = completionList d /\
  completeButton_resetClass d' = completeButton_resetClass d /\
  completeButton_textContent d' = completeButton_textContent d.
Proof.
  revert d. induction gs as [|e gs IH]; intros d; simpl.
  - rewrite app_nil_r. repeat split. lia.
  - destruct (IH (set_givenList
        (fun rows => rows ++ [{| g_node := next_node d;
                                 g_completedText := completedOn e;
                                 g_givenText := givenOn e |}])
        (bump_next_node d))) as (-> & -> & -> & -> & ->).
    simpl. rewrite map_app, <- app_assoc. simpl. repeat split. lia.
Qed.

(** X11. When both slots load, the first rendering returns and leaves a
    page that shows the store: the rows of the two lists are the rows of the
    two persisted sequences, in their order, under fresh and pairwise
    distinct nodes, and the labels carry the two lengths; the store is as
    it was.  Nothing is asked of the ids or of the button; where the ids are
    pairwise distinct and the button shows the mode, the page is
    [consistent]. *)
Theorem initialLoad_shows_store (w : World) (cs : list CompletedEntry)
    (gs : list GivenEntry) :
  stored_completed w = Return cs ->
  stored_given w = Return gs ->
  let w' := (initialLoad w).2 in
  initialLoad w = (Return tt, w') /\
  localStorage w' = localStorage w /\
  stored_completed w' = Return cs /\
  stored_given w' = Return gs /\
  visible_completed w' = map (fun e => (content e, e)) cs /\
  visible_given w' = map (fun e => (completedOn e, givenOn e)) gs /\
  (tabCompleted_textContent (document w'), tabGiven_textContent (document w'))
    = tab_labels cs gs /\
  item_nodes (document w') = seq (next_node (document w)) (length cs + length gs) /\
  NoDup (item_nodes (document w')) /\
  Forall (fun n => (n < next_node (document w'))%nat) (item_nodes (document w')) /\
  (NoDup (map id cs) -> button_shows_mode w -> consistent w' cs gs).
Proof.
  intros Hc Hg w'. subst w'.
  unfold initialLoad. rewrite bind_eq, renderList_eq, Hc, Hg. simpl.
  rewrite updateTabCounts_eq, stored_completed_eq, stored_given_eq. simpl.
  rewrite <- stored_completed_eq, <- stored_given_eq, Hc, Hg. simpl.
  split; [reflexivity|]. split; [reflexivity|].
  destruct (with_completed_rows_lists cs (cleared (document w))) as [Hvc Hgl].
  destruct (with_completed_rows_nodes cs (cleared (document w)))
    as (Hcn & Hnext1 & _ & Hclass1 & Htext1).
  remember (with_completed_rows cs (cleared (document w))) as d1 eqn:Hd1.
  destruct (with_given_rows_lists gs d1) as [Hvg Hcl].
  destruct (with_given_rows_nodes gs d1) as (Hgn & Hnext & _ & Hclass & Htext).
  assert (Hnodes : item_nodes (with_given_rows gs d1)
                   = seq (next_node (document w)) (length cs + length gs)).
  { unfold item_nodes. rewrite Hgn, Hcl, Hcn, Hgl, Hnext1. simpl.
    by rewrite seq_app. }
  match goal with
  | |- stored_completed ?x = _ /\ _ => set (w' := x)
  end.
  assert (Hc' : stored_completed w' = Return cs).
  { subst w'. rewrite stored_completed_eq. simpl. by rewrite <- stored_completed_eq. }
  assert (Hg' : stored_given w' = Return gs).
  { subst w'. rewrite stored_given_eq. simpl. by rewrite <- stored_given_eq. }
  assert (Hsc : visible_completed w' = map (fun e => (content e, e)) cs).
  { subst w'. unfold visible_completed. simpl. rewrite <- Hd1. by rewrite Hcl, Hvc. }
  assert (Hsg : visible_given w' = map (fun e => (completedOn e, givenOn e)) gs).
  { subst w'. unfold visible_given. simpl. rewrite <- Hd1. by rewrite Hvg, Hgl. }
  assert (Hlabels : (tabCompleted_textContent (document w'),
                     tabGiven_textContent (document w')) = tab_labels cs gs)
    by reflexivity.
  assert (Hitems : item_nodes (document w')
                   = seq (next_node (document w)) (length cs + length gs)).
  { subst w'. simpl. rewrite <- Hd1.
    replace (item_nodes _) with (item_nodes (with_given_rows gs d1)) by done.
    exact Hnodes. }
  assert (Hdistinct : NoDup (item_nodes (document w')))
    by (rewrite Hitems; apply NoDup_seq).
  assert (Hbelow : Forall (fun n => (n < next_node (document w'))%nat)
                     (item_nodes (document w'))).
  { rewrite Hitems. subst w'. simpl. rewrite <- Hd1.
    replace (next_node _) with (next_node (with_given_rows gs d1)) by done.
    rewrite Hnext, Hnext1. simpl.
    apply Forall_forall. intros n Hn. apply elem_of_seq in Hn. lia. }
  assert (Hbutton : button_shows_mode w -> button_shows_mode w').
  { intros [Hb1 Hb2]. split; subst w'; simpl; rewrite <- Hd1.
    - by rewrite Hclass, Hclass1.
    - by rewrite Htext, Htext1. }
  clear Hvc Hgl Hcn Hnext1 Hclass1 Htext1 Hvg Hcl Hgn Hnext Hclass Htext Hnodes.
  subst d1.
  split; [exact Hc'|]. split; [exact Hg'|]. split; [exact Hsc|].
  split; [exact Hsg|]. split; [exact Hlabels|]. split; [exact Hitems|].
  split; [exact Hdistinct|]. split; [exact Hbelow|].
  intros Hids Hb. constructor; auto.
Qed.

End Properties.

(** ** The properties on concrete pages *)

Lemma stored_page_two_entries :
  stored_completed page_two_entries = Return [entry_jan10_later; entry_jan10] /\
  stored_given page_two_entries = Return [].
Proof. split; vm_compute; reflexivity. Qed.

Lemma transfer_moves_entry_witness :
  exists w' cs' gs',
    handleTransfer en_US entry_jan10 0 jan15 page_two_entries = (Return tt, w') /\
    stored_completed w' = Return cs' /\
    (id entry_jan10 ∉ map id cs') /\
    stored_given w' = Return gs' /\
    length gs' = S (length (@nil GivenEntry)) /\
    (completedOn <$> head gs') = Some (content entry_jan10) /\
    (givenOn <$> head gs') = Some ("Given on: " +:+ en_US jan15).
Proof.
  apply (transfer_moves_entry en_US page_two_entries
           [entry_jan10_later; entry_jan10] [] entry_jan10 0 jan15).
  - vm_compute; reflexivity.
  - vm_compute; reflexivity.
  - right; left.
Defined.

Lemma transfer_of_absent_id_witness :
  exists w',
    handleTransfer en_US {| id := 7; content := "gone" |} 5 jan15 page_two_entries
      = (Return tt, w') /\
    stored_completed w' = Return [entry_jan10_later; entry_jan10] /\
    stored_given w'
      = Return [{| completedOn := "gone"; givenOn := "Given on: " +:+ en_US jan15 |}].
Proof.
  apply (transfer_of_absent_id en_US page_two_entries
           [entry_jan10_later; entry_jan10] [] {| id := 7; content := "gone" |} 5 jan15).
  - vm_compute; reflexivity.
  - vm_compute; reflexivity.
  - vm_compute. intros H. repeat (inversion H as [|? ? ? H']; clear H; rename H' into H; subst).
Defined.

Lemma add_prepends_entry_witness :
  let entry t := {| id := t; content := "Completed on " +:+ en_US t |} in
  let w1 := (handleAddEntry en_US jan10 empty_page).2 in
  let w2 := (handleAddEntry en_US (jan10 + 1) w1).2 in
  stored_completed w1 = Return [entry jan10] /\
  stored_completed w2 = Return [entry (jan10 + 1); entry jan10] /\
  (forall gs, stored_given empty_page = Return gs ->
     (handleAddEntry en_US jan10 empty_page).1 = Return tt /\
     (handleAddEntry en_US (jan10 + 1) w1).1 = Return tt).
Proof.
  apply (add_prepends_entry en_US empty_page [] jan10 (jan10 + 1)).
  - unfold time_value, jan10. lia.
  - unfold time_value, jan10. lia.
  - reflexivity.
Defined.

Lemma reset_confirm_or_decline_witness :
  exists w',
    handleButtonClick en_US jan15 true page_armed = (Return tt, w') /\
    isResetMode w' = false /\
    completeButton_resetClass (document w') = false /\
    stored_completed w' = Return [] /\ stored_given w' = Return [] /\
    tabCompleted_textContent (document w') = "Completed (0)" /\
    tabGiven_textContent (document w') = "Given (0)".
Proof.
  apply (reset_confirm_or_decline en_US page_armed jan15 true).
  vm_compute; reflexivity.
Defined.

Lemma load_of_corrupt_slot_throws_witness :
  loadCompletedEntries page_corrupt = (Throw SyntaxError, page_corrupt) /\
  (forall now, (handleAddEntry en_US now page_corrupt).1 = Throw SyntaxError) /\
  (forall e listItem now,
     (handleTransfer en_US e listItem now page_corrupt).1 = Throw SyntaxError) /\
  (renderList page_corrupt).1 = Throw SyntaxError /\
  (updateTabCounts page_corrupt).1 = Throw SyntaxError.
Proof.
  apply (load_of_corrupt_slot_throws en_US page_corrupt "{").
  - reflexivity.
  - vm_compute; reflexivity.
  - vm_compute; reflexivity.
Defined.

Lemma early_release_stays_normal_witness :
  let w1 := dispatch en_US empty_page mousedown_completeButton in
  let w2 := dispatch en_US w1 (elapse 1500) in
  let w3 := dispatch en_US w2 mouseup_completeButton in
  let w4 := dispatch en_US w3 (elapse 5000) in
  Forall (fun x => isResetMode x = false /\ observable x = observable empty_page)
    [w1; w2; w3; w4] /\
  pending (timers w1) = [(next_handle (timers empty_page),
                          clock (timers empty_page) + 3000)] /\
  pending (timers w3) = [] /\
  pending (timers w4) = [].
Proof.
  apply (early_release_stays_normal en_US empty_page 1500 5000 mouseup_completeButton).
  - reflexivity.
  - reflexivity.
  - lia.
  - lia.
  - left; reflexivity.
Defined.

Lemma transfer_frame_witness :
  exists w' cs' gs',
    handleTransfer en_US entry_jan10_later 1 jan15 page_two_entries = (Return tt, w') /\
    stored_completed w' = Return cs' /\
    stored_given w' = Return gs' /\
    cs' = filter (fun x => id x ≠ id entry_jan10_later) [entry_jan10_later; entry_jan10] /\
    cs' `sublist_of` [entry_jan10_later; entry_jan10] /\
    (forall x, x ∈ [entry_jan10_later; entry_jan10] ->
               id x ≠ id entry_jan10_later -> x ∈ cs') /\
    length gs' = S (length (@nil GivenEntry)) /\
    tail gs' = [].
Proof.
  apply (transfer_frame en_US page_two_entries
           [entry_jan10_later; entry_jan10] [] entry_jan10_later 1 jan15).
  - vm_compute; reflexivity.
  - vm_compute; reflexivity.
Defined.

(** C6, as the specification words it, fails on [page_corrupt]: the load
    of the slot that holds "{" is not the empty sequence but a SyntaxError,
    and the add gesture ends with it, leaving the store as it was. *)
Lemma corrupt_slot_is_not_taken_for_empty :
  localStorage page_corrupt !! COMPLETED_STORAGE_KEY = Some "{" /\
  loadCompletedEntries page_corrupt = (Throw SyntaxError, page_corrupt) /\
  loadCompletedEntries page_corrupt <> (Return [], page_corrupt) /\
  (handleAddEntry en_US jan10 page_corrupt).1 = Throw SyntaxError /\
  localStorage (handleAddEntry en_US jan10 page_corrupt).2 = localStorage page_corrupt.
Proof.
  assert (H : loadCompletedEntries page_corrupt = (Throw SyntaxError, page_corrupt))
    by (vm_compute; reflexivity).
  split; [reflexivity|]. split; [exact H|]. split; [by rewrite H|].
  split; vm_compute; reflexivity.
Qed.

(** C4 on the script: two adds whose [new Date().getTime()] agree give two
    Completed entries with one id; a transfer of either row then removes
    both entries from the store and adds one Given entry. *)
Lemma same_instant_adds_share_an_id :
  stored_completed page_same_instant = Return [entry_jan10; entry_jan10] /\
  ~ NoDup (map id [entry_jan10; entry_jan10]) /\
  let w' := dispatch en_US page_same_instant (click_removeBtn 0 jan15) in
  stored_completed w' = Return [] /\
  stored_given w' = Return [given_jan15] /\
  visible_completed w' = [("Completed on January 10, 2024", entry_jan10)].
Proof.
  split; [vm_compute; reflexivity|]. split.
  - intros H. apply NoDup_cons in H as [H _]. apply H. left.
  - repeat split; vm_compute; reflexivity.
Qed.

(** The scenario of the specification: an add on 2024-01-10, then the
    transfer of that row on 2024-01-15. *)
Example add_then_transfer :
  let w1 := dispatch en_US empty_page (click_completeButton jan10 false) in
  let w2 := dispatch en_US w1 (click_removeBtn 0 jan15) in
  visible_completed w1 = [("Completed on January 10, 2024", entry_jan10)] /\
  tabCompleted_textContent (document w1) = "Completed (1)" /\
  visible_completed w2 = [] /\
  tabCompleted_textContent (document w2) = "Completed (0)" /\
  visible_given w2 = [("Completed on January 10, 2024", "Given on: January 15, 2024")] /\
  tabGiven_textContent (document w2) = "Given (1)" /\
  stored_completed w2 = Return [] /\
  stored_given w2 = Return [given_jan15].
Proof. repeat split; vm_compute; reflexivity. Qed.

(** ** More properties on concrete pages *)

Lemma stored_page_given_corrupt :
  stored_completed page_given_corrupt = Return [entry_jan10_later; entry_jan10] /\
  stored_given page_given_corrupt = Throw SyntaxError.
Proof. split; vm_compute; reflexivity. Qed.

Lemma save_then_load_witness :
  let wc := (saveCompletedEntries [entry_jan10] empty_page).2 in
  let wg := (saveGivenEntries [given_jan15] empty_page).2 in
  (loadCompletedEntries wc = (Return [entry_jan10], wc) /\
   stored_given wc = stored_given empty_page /\ document wc = document empty_page /\
   (saveCompletedEntries [entry_jan10]
      (saveCompletedEntries [entry_jan10_later] empty_page).2).2 = wc) /\
  (loadGivenEntries wg = (Return [given_jan15], wg) /\
   stored_completed wg = stored_completed empty_page /\
   document wg = document empty_page /\
   (saveGivenEntries [given_jan15] (saveGivenEntries [] empty_page).2).2 = wg).
Proof.
  apply (save_then_load en_US empty_page [entry_jan10] [entry_jan10_later] [given_jan15] []).
  repeat constructor.
Defined.

Lemma add_then_transfer_restores_witness :
  let e := new_completed en_US jan15 in
  let w1 := (handleAddEntry en_US jan15 page_two_entries).2 in
  let w2 := (handleTransfer en_US e 2 (jan15 + 1) w1).2 in
  stored_completed w2 = Return [entry_jan10_later; entry_jan10] /\
  stored_given w2 = Return [new_given en_US e (jan15 + 1)].
Proof.
  apply (add_then_transfer_restores en_US page_two_entries
           [entry_jan10_later; entry_jan10] [] jan15 (jan15 + 1) 2).
  - unfold time_value, jan15. lia.
  - vm_compute; reflexivity.
  - vm_compute; reflexivity.
  - vm_compute. intros H.
    repeat (inversion H as [|? ? ? H']; clear H; rename H' into H; subst).
Defined.

Lemma transfer_twice_duplicates_witness :
  let w1 := (handleTransfer en_US entry_jan10 0 jan15 page_two_entries).2 in
  let w2 := (handleTransfer en_US entry_jan10 0 (jan15 + 1) w1).2 in
  stored_completed w1
    = Return (filter (fun x => id x ≠ id entry_jan10) [entry_jan10_later; entry_jan10]) /\
  stored_completed w2 = stored_completed w1 /\
  stored_given w2
    = Return [new_given en_US entry_jan10 (jan15 + 1); new_given en_US entry_jan10 jan15].
Proof.
  apply (transfer_twice_duplicates en_US page_two_entries
           [entry_jan10_later; entry_jan10] [] entry_jan10 0 0 jan15 (jan15 + 1)).
  - vm_compute; reflexivity.
  - vm_compute; reflexivity.
Defined.

Lemma unreadable_completed_shows_unsaved_change_witness :
  let wa := (handleAddEntry en_US jan10 page_corrupt).2 in
  let wt := (handleTransfer en_US entry_jan10 0 jan10 page_corrupt).2 in
  ((handleAddEntry en_US jan10 page_corrupt).1 = Throw SyntaxError /\
   localStorage wa = localStorage page_corrupt /\
   completionList (document wa)
     = completed_item (next_node (document page_corrupt)) (new_completed en_US jan10)
       :: completionList (document page_corrupt) /\
   givenList (document wa) = givenList (document page_corrupt)) /\
  ((handleTransfer en_US entry_jan10 0 jan10 page_corrupt).1 = Throw SyntaxError /\
   localStorage wt = localStorage page_corrupt /\
   completionList (document wt)
     = filter (fun r => c_node r ≠ 0%nat) (completionList (document page_corrupt)) /\
   givenList (document wt)
     = filter (fun r => g_node r ≠ 0%nat) (givenList (document page_corrupt))).
Proof.
  apply (unreadable_completed_shows_unsaved_change en_US page_corrupt SyntaxError
           jan10 entry_jan10 0).
  vm_compute; reflexivity.
Defined.

Lemma unreadable_given_loses_transferred_entry_witness :
  let w' := (handleTransfer en_US entry_jan10 0 jan15 page_given_corrupt).2 in
  (handleTransfer en_US entry_jan10 0 jan15 page_given_corrupt).1 = Throw SyntaxError /\
  stored_completed w'
    = Return (filter (fun x => id x ≠ id entry_jan10) [entry_jan10_later; entry_jan10]) /\
  (id entry_jan10
     ∉ map id (filter (fun x => id x ≠ id entry_jan10) [entry_jan10_later; entry_jan10])) /\
  localStorage w' !! GIVEN_STORAGE_KEY
    = localStorage page_given_corrupt !! GIVEN_STORAGE_KEY /\
  stored_given w' = Throw SyntaxError /\
  givenList (document w')
    = given_item (next_node (document page_given_corrupt))
        (new_given en_US entry_jan10 jan15)
      :: filter (fun r => g_node r ≠ 0%nat) (givenList (document page_given_corrupt)).
Proof.
  apply (unreadable_given_loses_transferred_entry en_US page_given_corrupt
           [entry_jan10_later; entry_jan10] SyntaxError entry_jan10 0 jan15).
  - vm_compute; reflexivity.
  - vm_compute; reflexivity.
Defined.

Lemma unreadable_given_leaves_labels_stale_witness :
  let w' := (handleAddEntry en_US jan15 page_given_corrupt).2 in
  (handleAddEntry en_US jan15 page_given_corrupt).1 = Throw SyntaxError /\
  stored_completed w'
    = Return [new_completed en_US jan15; entry_jan10_later; entry_jan10] /\
  tabCompleted_textContent (document w')
    = tabCompleted_textContent (document page_given_corrupt) /\
  tabGiven_textContent (document w')
    = tabGiven_textContent (document page_given_corrupt).
Proof.
  apply (unreadable_given_leaves_labels_stale en_US page_given_corrupt
           [entry_jan10_later; entry_jan10] SyntaxError jan15).
  - unfold time_value, jan15. lia.
  - vm_compute; reflexivity.
  - vm_compute; reflexivity.
Defined.

Lemma long_press_arms_witness :
  let w1 := dispatch en_US empty_page mousedown_completeButton in
  let w2 := dispatch en_US w1 (elapse 3000) in
  let w3 := dispatch en_US w2 mouseup_completeButton in
  isResetMode w2 = true /\
  completeButton_resetClass (document w2) = true /\
  completeButton_textContent (document w2) = "⟳" /\
  pending (timers w2) = [] /\
  localStorage w2 = localStorage empty_page /\
  completionList (document w2) = completionList (document empty_page) /\
  givenList (document w2) = givenList (document empty_page) /\
  tabCompleted_textContent (document w2)
    = tabCompleted_textContent (document empty_page) /\
  tabGiven_textContent (document w2) = tabGiven_textContent (document empty_page) /\
  observable w3 = observable w2 /\
  pending (timers w3) = [].
Proof.
  apply (long_press_arms en_US empty_page 3000 mouseup_completeButton).
  - reflexivity.
  - reflexivity.
  - lia.
  - left; reflexivity.
Defined.

Lemma second_press_leaves_first_timer_witness :
  let w1 := run en_US
              [mousedown_completeButton; elapse 1000;
               mousedown_completeButton; elapse 1000; mouseup_completeButton]
              empty_page in
  let w2 := dispatch en_US w1 (elapse 1000) in
  isResetMode w1 = false /\
  pending (timers w1) = [(next_handle (timers empty_page),
                          clock (timers empty_page) + 3000)] /\
  isResetMode w2 = true /\
  completeButton_textContent (document w2) = "⟳".
Proof.
  apply (second_press_leaves_first_timer en_US empty_page 1000 1000 1000
           mouseup_completeButton).
  - reflexivity.
  - reflexivity.
  - lia.
  - lia.
  - lia.
  - lia.
  - left; reflexivity.
Defined.

Lemma early_release_with_stale_timer_arms_witness :
  let s := run en_US
             [mousedown_completeButton; mousedown_completeButton;
              mouseup_completeButton] empty_page in
  let w1 := dispatch en_US s mousedown_completeButton in
  let w2 := dispatch en_US w1 (elapse 1500) in
  let w3 := dispatch en_US w2 mouseup_completeButton in
  let w4 := dispatch en_US w3 (elapse 1500) in
  (isResetMode s = false /\ observable s = observable empty_page) /\
  dispatch en_US s mouseup_completeButton = s /\
  pending (timers s) = [(next_handle (timers empty_page),
                         clock (timers empty_page) + 3000)] /\
  Forall (fun x => isResetMode x = false /\ observable x = observable empty_page)
    [w1; w2; w3] /\
  pending (timers w3) = pending (timers s) /\
  isResetMode w4 = true /\
  completeButton_resetClass (document w4) = true /\
  completeButton_textContent (document w4) = "⟳" /\
  observable w4 ≠ observable empty_page.
Proof.
  apply (early_release_with_stale_timer_arms en_US empty_page 1500 1500
           mouseup_completeButton).
  - reflexivity.
  - reflexivity.
  - lia.
  - lia.
  - left; reflexivity.
Defined.

Lemma initialLoad_shows_store_witness :
  let w' := (initialLoad page_same_instant).2 in
  let cs := [entry_jan10; entry_jan10] in
  let gs := @nil GivenEntry in
  initialLoad page_same_instant = (Return tt, w') /\
  localStorage w' = localStorage page_same_instant /\
  stored_completed w' = Return cs /\
  stored_given w' = Return gs /\
  visible_completed w' = map (fun e => (content e, e)) cs /\
  visible_given w' = map (fun e => (completedOn e, givenOn e)) gs /\
  (tabCompleted_textContent (document w'), tabGiven_textContent (document w'))
    = tab_labels cs gs /\
  item_nodes (document w')
    = seq (next_node (document page_same_instant)) (length cs + length gs) /\
  NoDup (item_nodes (document w')) /\
  Forall (fun n => (n < next_node (document w'))%nat) (item_nodes (document w')) /\
  (NoDup (map id cs) -> button_shows_mode page_same_instant -> consistent w' cs gs).
Proof.
  apply (initialLoad_shows_store page_same_instant [entry_jan10; entry_jan10] []).
  - vm_compute; reflexivity.
  - vm_compute; reflexivity.
Defined.

Lemma empty_page_consistent : consistent empty_page [] [].
Proof.
  constructor; try reflexivity; try constructor; reflexivity.
Qed.

Lemma run_keeps_consistent_witness :
  exists cs' gs',
    consistent
      (run en_US [click_completeButton jan10 false; click_tab given;
                  click_removeBtn 0 jan15; mousedown_completeButton; elapse 3000;
                  mouseup_completeButton; click_completeButton (jan15 + 1) true]
         empty_page) cs' gs'.
Proof.
  apply (run_keeps_consistent en_US _ empty_page [] []).
  - exact empty_page_consistent.
  - simpl. repeat split; try (unfold time_value, jan10, jan15; lia).
    + intros cs Hcs. vm_compute in Hcs. injection Hcs as <-. apply not_elem_of_nil.
    + match goal with H : _ = false |- _ => vm_compute in H; discriminate H end.
Defined.
